(** * EventCamera: the multi-scale endpoint-error loss and the train/evaluate driver

    A shallow embedding of [src/main.py].

    - Shapes are integers.  The scale factor [pred_flow.shape[2] / gt_flow.shape[2]]
      is a Python [float]: an IEEE-754 binary64 number.  Module [Float64] gives
      that arithmetic exactly (round to nearest, ties to even, 53 significant
      bits), because the size of the resized ground truth is a truncation of a
      rounded product and depends on the last bit.
    - Tensor entries, losses and learning rates are real numbers: the
      element type of the tensors and the kernels of the numeric backend are
      not fixed by the script, so arithmetic on data is the exact one that the
      floating-point kernels approximate.  The one NaN the script can produce
      from finite data, the mean of zero elements, is the value [NaN] of
      [scalar].
    - Exceptions are values of the [result] type.
    - The operations of the numeric backend that the script calls
      ([interpolate], broadcasting subtraction, [norm], [mean], [cat], the
      data loader, the step schedule) are in [Torch] and [Driver] as the
      backend defines them.  The network, the collation and the optimizer
      update belong to modules of the repository that [main.py] imports;
      they are the fields of the class [Driver.Collaborators]. *)

From Stdlib Require Import ZArith QArith Qround Qabs Qpower Qreduction.
From Stdlib Require Import Reals Qreals Lra Lia.
From Stdlib Require Import List String Bool Arith PeanoNat.
From Stdlib Require Floats Uint63.
Import ListNotations.

(** * Part I: the model *)

(* ================================================================== *)
(** * Binary64 arithmetic on rationals *)
(* ================================================================== *)

Module Float64.

Local Open Scope Q_scope.

(** Number of significant bits of a binary64 number. *)
Definition prec : Z := 53.

Definition pow2 (k : Z) : Q := Qpower 2 k.

(** [ilog2 x], for [0 < x], is the exponent [e] with [2^e <= x < 2^(e+1)]. *)
Definition ilog2 (x : Q) : Z :=
  let c := (Z.log2 (Qnum x) - Z.log2 (Zpos (Qden x)))%Z in
  if Qle_bool (pow2 c) x then c else (c - 1)%Z.

(** Nearest integer, a tie going to the even neighbour. *)
Definition rne (s : Q) : Z :=
  let f := Qfloor s in
  match Qcompare (s - inject_Z f) (1 # 2) with
  | Lt => f
  | Gt => (f + 1)%Z
  | Eq => if Z.even f then f else (f + 1)%Z
  end.

(** Rounding of an exact result to binary64.  The exponent is left
    unbounded: the model is exact in the normal range [2^-1022 <= |x| < 2^1024],
    which contains every quotient and product of two sizes below [2^53]. *)
Definition round64 (x : Q) : Q :=
  if Qeq_bool x 0 then 0
  else
    let e := ilog2 (Qabs x) in
    Qred (inject_Z (rne (x * pow2 (prec - 1 - e))) * pow2 (e - (prec - 1))).

Definition fmul (x y : Q) : Q := round64 (x * y).
Definition fdiv (x y : Q) : Q := round64 (x / y).

(** C's conversion of a double to an integer: truncation towards zero. *)
Definition trunc (x : Q) : Z :=
  if Qle_bool 0 x then Qfloor x else Qceiling x.

(** The value of a finite [spec_float], to compare [round64] with the
    primitive binary64 numbers of the prover. *)
Definition SF2Q (f : SpecFloat.spec_float) : option Q :=
  match f with
  | SpecFloat.S754_zero _ => Some 0
  | SpecFloat.S754_finite s m e =>
      let v := Qred (inject_Z (Zpos m) * pow2 e) in
      Some (if s then Qred (- v) else v)
  | _ => None
  end.

Definition Prim2Q (f : PrimFloat.float) : option Q := SF2Q (FloatOps.Prim2SF f).

Definition prim_of_Z (n : Z) : PrimFloat.float := PrimFloat.of_uint63 (Uint63.of_Z n).

(** [trunc (b * (a / b))] computed by the primitive floats and by [round64]. *)
Definition prim_resize (a b : Z) : option Q * option Q :=
  let q := PrimFloat.div (prim_of_Z a) (prim_of_Z b) in
  (Prim2Q q, Prim2Q (PrimFloat.mul (prim_of_Z b) q)).

Definition model_resize (a b : Z) : option Q * option Q :=
  let q := fdiv (inject_Z a) (inject_Z b) in
  (Some q, Some (fmul (round64 (inject_Z b)) q)).

Definition same_pair (u v : option Q * option Q) : bool :=
  match u, v with
  | (Some a, Some b), (Some c, Some d) => Qeq_bool a c && Qeq_bool b d
  | _, _ => false
  end.

(** Agreement on every pair of sizes from 1 to [n]. *)
Definition agree_upto (n : nat) : bool :=
  let sizes := map (fun k => Z.of_nat (S k)) (seq 0 n) in
  forallb (fun a => forallb (fun b => same_pair (prim_resize a b) (model_resize a b)) sizes) sizes.

End Float64.


(* ================================================================== *)
(** * Python values and exceptions *)
(* ================================================================== *)

Inductive exn : Type :=
| ZeroDivisionError   (* [/] with a zero divisor *)
| RuntimeError        (* raised by the numeric backend: sizes, shapes, files *)
| AttributeError      (* [.item()] or [.backward()] on a plain float *)
| KeyError            (* a missing dictionary key *)
| ValueError          (* an argument out of its domain *)
| OSError.            (* the file system refuses *)

Inductive result (A : Type) : Type :=
| Ok (a : A)
| Raise (e : exn).
Arguments Ok {A} a.
Arguments Raise {A} e.

Definition bind {A B : Type} (c : result A) (k : A -> result B) : result B :=
  match c with
  | Ok a => k a
  | Raise e => Raise e
  end.

Declare Scope py_scope.
Delimit Scope py_scope with py.
Notation "x <- c ;; k" := (bind c (fun x => k))
  (at level 61, c at next level, right associativity) : py_scope.
Notation "'ret' a" := (Ok a) (at level 60) : py_scope.

(** A scalar computed from tensor data: a real number, or the NaN that the
    mean of zero elements produces. *)
Inductive scalar : Type :=
| Real (r : R)
| NaN.

Definition scalar_add (a b : scalar) : scalar :=
  match a, b with
  | Real x, Real y => Real (x + y)
  | _, _ => NaN
  end.

Definition scalar_div_nat (a : scalar) (n : nat) : scalar :=
  match a with
  | Real x => Real (x / INR n)
  | NaN => NaN
  end.

(** What [total_loss] can hold: the Python float it starts as, or the
    zero-dimensional tensor that adding a tensor to it gives. *)
Inductive pyval : Type :=
| PyFloat (x : scalar)
| Tensor0 (x : scalar).

Definition pyval_scalar (v : pyval) : scalar :=
  match v with PyFloat x | Tensor0 x => x end.

(** [total_loss += epe] with [epe] a zero-dimensional tensor. *)
Definition iadd_tensor (total : pyval) (epe : scalar) : pyval :=
  Tensor0 (scalar_add (pyval_scalar total) epe).

(** [loss.item()]: only a tensor has the method. *)
Definition item (v : pyval) : result scalar :=
  match v with
  | Tensor0 x => Ok x
  | PyFloat _ => Raise AttributeError
  end.

(** [loss.backward()]: likewise. *)
Definition backward (v : pyval) : result unit :=
  match v with
  | Tensor0 _ => Ok tt
  | PyFloat _ => Raise AttributeError
  end.

(** [a / b] on Python integers. *)
Definition py_truediv (a b : Z) : result Q :=
  if (b =? 0)%Z then Raise ZeroDivisionError
  else Ok (Float64.fdiv (inject_Z a) (inject_Z b)).

(* ================================================================== *)
(** * Tensors and the backend operations the loss calls *)
(* ================================================================== *)

Module Torch.

Local Open Scope R_scope.

(** A four-dimensional tensor: batch, channel, height, width. *)
Record Tensor : Type := mkTensor {
  dimN : nat;
  dimC : nat;
  dimH : nat;
  dimW : nat;
  entry : nat -> nat -> nat -> nat -> R
}.

(** A three-dimensional tensor: what a norm over the channels leaves. *)
Record Tensor3 : Type := mkTensor3 {
  dim0 : nat;
  dim1 : nat;
  dim2 : nat;
  entry3 : nat -> nat -> nat -> R
}.

Fixpoint sum_upto (n : nat) (f : nat -> R) : R :=
  match n with
  | O => 0
  | S k => sum_upto k f + f k
  end.

(** ** [interpolate(input, scale_factor=sf, mode='bilinear', align_corners=False)] *)

(** The size of the output along one axis: the double product of the input
    size and the scale factor, converted to an integer. *)
Definition output_size (in_size : nat) (sf : Q) : Z :=
  Float64.trunc (Float64.fmul (Float64.round64 (inject_Z (Z.of_nat in_size))) sf).

(** The step between source coordinates: the inverse of the scale factor
    when one is given and positive, the ratio of the sizes otherwise. *)
Definition compute_scale (sf : Q) (in_size out_size : nat) : Q :=
  if Qle_bool sf 0
  then (inject_Z (Z.of_nat in_size) / inject_Z (Z.of_nat out_size))%Q
  else (1 / sf)%Q.

(** Source coordinate of output pixel [dst] (pixel centres at half
    integers, negative coordinates clipped to zero). *)
Definition source_index (scale : Q) (dst : nat) : Q :=
  let src := (scale * (inject_Z (Z.of_nat dst) + (1 # 2)) - (1 # 2))%Q in
  if Qle_bool 0 src then src else 0%Q.

(** The two source pixels that output pixel [dst] reads and the weight of
    the second one. *)
Definition index_and_lambda (scale : Q) (in_size : nat) (dst : nat) : nat * nat * Q :=
  let src := source_index scale dst in
  let i0 := Z.min (Qfloor src) (Z.of_nat in_size - 1) in
  let d := (src - inject_Z i0)%Q in
  let lam1 := if Qle_bool d 0 then 0%Q else if Qle_bool 1 d then 1%Q else d in
  let i1 := (i0 + (if (i0 <? Z.of_nat in_size - 1)%Z then 1 else 0))%Z in
  (Z.to_nat i0, Z.to_nat i1, lam1).

Definition bilinear_entry (t : Tensor) (sh sw : Q) (n c y x : nat) : R :=
  let '(y0, y1, ly) := index_and_lambda sh (dimH t) y in
  let '(x0, x1, lx) := index_and_lambda sw (dimW t) x in
  let ly1 := Q2R ly in let ly0 := 1 - ly1 in
  let lx1 := Q2R lx in let lx0 := 1 - lx1 in
  ly0 * (lx0 * entry t n c y0 x0 + lx1 * entry t n c y0 x1)
  + ly1 * (lx0 * entry t n c y1 x0 + lx1 * entry t n c y1 x1).

Definition interpolate (t : Tensor) (sf : Q) : result Tensor :=
  let oh := output_size (dimH t) sf in
  let ow := output_size (dimW t) sf in
  if (0 <? dimC t)%nat && (0 <? dimH t)%nat && (0 <? dimW t)%nat
     && (0 <? oh)%Z && (0 <? ow)%Z
  then
    let sh := compute_scale sf (dimH t) (Z.to_nat oh) in
    let sw := compute_scale sf (dimW t) (Z.to_nat ow) in
    Ok {| dimN := dimN t; dimC := dimC t;
          dimH := Z.to_nat oh; dimW := Z.to_nat ow;
          entry := bilinear_entry t sh sw |}
  else Raise RuntimeError.

(** ** Elementwise subtraction, with broadcasting *)

(** Two sizes are compatible when they are equal or one of them is 1. *)
Definition broadcast_dim (a b : nat) : option nat :=
  if (a =? b)%nat then Some a
  else if (a =? 1)%nat then Some b
  else if (b =? 1)%nat then Some a
  else None.

Definition bidx (size i : nat) : nat := if (size =? 1)%nat then O else i.

Definition sub (a b : Tensor) : result Tensor :=
  match broadcast_dim (dimN a) (dimN b), broadcast_dim (dimC a) (dimC b),
        broadcast_dim (dimH a) (dimH b), broadcast_dim (dimW a) (dimW b) with
  | Some n, Some c, Some h, Some w =>
      Ok {| dimN := n; dimC := c; dimH := h; dimW := w;
            entry := fun i j y x =>
              entry a (bidx (dimN a) i) (bidx (dimC a) j) (bidx (dimH a) y) (bidx (dimW a) x)
              - entry b (bidx (dimN b) i) (bidx (dimC b) j) (bidx (dimH b) y) (bidx (dimW b) x) |}
  | _, _, _, _ => Raise RuntimeError
  end.

(** ** [torch.norm(t, p=2, dim=1)] and [torch.mean] *)

Definition norm_dim1 (t : Tensor) : Tensor3 :=
  {| dim0 := dimN t; dim1 := dimH t; dim2 := dimW t;
     entry3 := fun n y x => sqrt (sum_upto (dimC t) (fun c => Rsqr (entry t n c y x))) |}.

Definition sum3 (t : Tensor3) : R :=
  sum_upto (dim0 t) (fun n => sum_upto (dim1 t) (fun y => sum_upto (dim2 t) (fun x => entry3 t n y x))).

Definition numel3 (t : Tensor3) : nat := (dim0 t * dim1 t * dim2 t)%nat.

Definition mean (t : Tensor3) : scalar :=
  if (numel3 t =? 0)%nat then NaN else Real (sum3 t / INR (numel3 t)).

End Torch.

(* ================================================================== *)
(** * The multi-scale loss *)
(* ================================================================== *)

Import Torch.
Local Open Scope py_scope.

(** [pred_flows.items()]: the scales in insertion order. *)
Definition FlowDict : Type := list (string * Tensor).

(** Lines 32-33: the ground truth resized for a prediction of height
    [pred_h].  The height is all of the prediction that these lines read. *)
Definition resized_gt (pred_h : nat) (gt_flow : Tensor) : result Tensor :=
  scale_factor <- py_truediv (Z.of_nat pred_h) (Z.of_nat (dimH gt_flow)) ;;
  interpolate gt_flow scale_factor.

(** One turn of the loop at lines 31-35: the endpoint error of one scale. *)
Definition scale_epe (pred_flow gt_flow : Tensor) : result scalar :=
  scaled_gt_flow <- resized_gt (dimH pred_flow) gt_flow ;;
  diff <- sub pred_flow scaled_gt_flow ;;
  ret (mean (norm_dim1 diff)).

Fixpoint epe_loop (items : FlowDict) (gt_flow : Tensor) (total_loss : pyval) : result pyval :=
  match items with
  | [] => ret total_loss
  | (_, pred_flow) :: rest =>
      epe <- scale_epe pred_flow gt_flow ;;
      epe_loop rest gt_flow (iadd_tensor total_loss epe)
  end.

Definition compute_multiscale_epe_error (pred_flows : FlowDict) (gt_flow : Tensor) : result pyval :=
  epe_loop pred_flows gt_flow (PyFloat (Real 0)).

(* ================================================================== *)
(** * The loss as the specification words it *)
(* ================================================================== *)

(** These definitions follow the sentences of the specification (sections 3,
    4.2 and 8) and are compared with the code's [compute_multiscale_epe_error]
    in Part II. *)
Module Spec.

Local Open Scope R_scope.

(** "scale_factor = h_s / h_gt", a floating-point quotient. *)
Definition scale_factor (pred gt : Tensor) : Q :=
  Float64.fdiv (inject_Z (Z.of_nat (dimH pred))) (inject_Z (Z.of_nat (dimH gt))).

(** "Downsample the ground truth flow to P_s's spatial resolution using
    bilinear interpolation without corner alignment." *)
Definition scaled_gt (pred gt : Tensor) : Tensor :=
  let step := (1 / scale_factor pred gt)%Q in
  {| dimN := dimN gt; dimC := dimC gt; dimH := dimH pred; dimW := dimW pred;
     entry := bilinear_entry gt step step |}.

(** "The per-pixel Euclidean norm of (P_s - scaled_gt_s) across the flow
    dimension". *)
Definition pixel_error (p g : Tensor) (n y x : nat) : R :=
  sqrt (sum_upto (dimC p) (fun c => Rsqr (entry p n c y x - entry g n c y x))).

(** "then average over all remaining dimensions (batch, height, width)". *)
Definition endpoint_error (p g : Tensor) : R :=
  sum_upto (dimN p) (fun n =>
    sum_upto (dimH p) (fun y =>
      sum_upto (dimW p) (fun x => pixel_error p g n y x)))
  / INR (dimN p * dimH p * dimW p).

Definition scale_error (pred gt : Tensor) : R :=
  endpoint_error pred (scaled_gt pred gt).

(** "Sum the scalar endpoint errors over all scales, unweighted". *)
Fixpoint total_loss (preds : FlowDict) (gt : Tensor) : R :=
  match preds with
  | [] => 0
  | (_, p) :: rest => scale_error p gt + total_loss rest gt
  end.

(** The endpoint errors of all scales, in the order of the mapping; an
    exception of one scale is the exception of the list. *)
Fixpoint scale_errors (preds : FlowDict) (gt : Tensor) : result (list scalar) :=
  match preds with
  | [] => Ok []
  | (_, p) :: rest =>
      bind (scale_epe p gt) (fun e =>
      bind (scale_errors rest gt) (fun es => Ok (e :: es)))
  end.

Definition scalar_sum (es : list scalar) : scalar :=
  fold_right scalar_add (Real 0) es.

(** The constraints of section 4.2 and the invariant of section 3 on one
    scale: batch and channel counts agree, no dimension is empty, and the
    resized ground truth has the resolution of the prediction. *)
Definition shapes_consistent (pred gt : Tensor) : Prop :=
  dimN pred = dimN gt /\ dimC pred = dimC gt
  /\ (0 < dimN pred)%nat /\ (0 < dimC pred)%nat
  /\ (0 < dimH pred)%nat /\ (0 < dimW pred)%nat
  /\ (0 < dimH gt)%nat /\ (0 < dimW gt)%nat
  /\ output_size (dimH gt) (scale_factor pred gt) = Z.of_nat (dimH pred)
  /\ output_size (dimW gt) (scale_factor pred gt) = Z.of_nat (dimW pred).

(** "height and width scale identically": the width ratio equals the
    height ratio (cross-multiplied). *)
Definition same_ratio (pred gt : Tensor) : Prop :=
  (dimW pred * dimH gt = dimH pred * dimW gt)%nat.











End Spec.

(* ================================================================== *)
(** * Concrete inputs *)
(* ================================================================== *)

Module Inputs.

Local Open Scope R_scope.

(** A flow field of the given sizes with every entry equal to [v]. *)
Definition const_tensor (n c h w : nat) (v : R) : Tensor :=
  {| dimN := n; dimC := c; dimH := h; dimW := w; entry := fun _ _ _ _ => v |}.

(** A 22x22 ground truth and a 15x15 prediction: both ratios are 15/22. *)
Definition gt22 : Tensor := const_tensor 1 2 22 22 0.
Definition pred15 : Tensor := const_tensor 1 2 15 15 0.


(** A 4x4 ground truth with predictions at half and at full resolution. *)
Definition gt4 : Tensor := const_tensor 1 2 4 4 1.
Definition pred2 : Tensor := const_tensor 1 2 2 2 0.
Definition pred4 : Tensor := const_tensor 1 2 4 4 0.

End Inputs.

(* ================================================================== *)
(** * The driver: training, checkpoint, evaluation *)
(* ================================================================== *)

Module Driver.

Local Open Scope R_scope.

(** A collated batch: [batch["event_volume"]] and [batch["flow_gt"]]. *)
Record Batch : Type := mkBatch {
  event_volume : Tensor;
  flow_gt : Tensor
}.

(** What the script takes from its collaborators: the network
    ([src.models.evflownet]), the collation of samples ([src.datasets]),
    automatic differentiation, the Adam update and the random order of a
    shuffling loader. *)
Class Collaborators : Type := {
  Params : Type;
  Grads : Type;
  OptState : Type;
  Sample : Type;
  (** [EVFlowNet(args.train)] built after [set_seed(seed)]. *)
  init_params : Z -> Params;
  (** [model(event_image)]; the flag is the training mode. *)
  EVFlowNet : bool -> Params -> Tensor -> FlowDict;
  (** The gradient of the loss of one batch that [loss.backward()] adds
      to the stored gradients. *)
  autograd : Params -> Batch -> Grads;
  grad_add : Grads -> Grads -> Grads;
  adam_init : Params -> OptState;
  (** [optimizer.step()] at the given learning rate and weight decay. *)
  adam_step : R -> R -> OptState -> Params -> option Grads -> Params * OptState;
  train_collate : list Sample -> Batch;
  (** The order of the [k]-th pass of a shuffling loader under a seed. *)
  shuffled : Z -> nat -> list Sample -> list Sample
}.

(** ** Data loaders *)

Section Loader.
Context {A : Type}.

(** [BatchSampler.__iter__] with [drop_last=False]: indices are gathered
    until the batch is full; a last, shorter batch is yielded too. *)
Fixpoint batch_sampler (batch_size : nat) (order : list A) (batch : list A) : list (list A) :=
  match order with
  | [] => match batch with
          | [] => []
          | _ :: _ => [rev batch]
          end
  | idx :: rest =>
      let batch' := idx :: batch in
      if (List.length batch' =? batch_size)%nat
      then rev batch' :: batch_sampler batch_size rest []
      else batch_sampler batch_size rest batch'
  end.

End Loader.

Record DataLoader {X : Collaborators} : Type := mkLoader {
  dataset : list Sample;
  batch_size : nat;
  shuffle : bool
}.

(** What is printed and which collaborator is called, in order. *)
Inductive Event : Type :=
| PrintEpoch (epoch : nat)
| ForwardPass (training : bool)
| PrintBatchLoss (i : nat) (loss : scalar)
| ZeroGrad
| BackwardPass
| OptimizerStep
| PrintEpochLoss (epoch : nat) (mean : scalar)
| SchedulerStep
| MakeDirs (path : string)
| TorchSave (path : string)
| TorchLoad (path : string)
| PrintStartTest
| PrintTestDone
| NumpySave (path : string).

(** The accumulated evaluation output: [torch.tensor([])], a
    one-dimensional tensor with no element, or a four-dimensional one. *)
Inductive Accum : Type :=
| Empty1D
| Flow (t : Tensor).

Definition leading_dim (a : Accum) : nat :=
  match a with
  | Empty1D => 0
  | Flow t => dimN t
  end.

(** [torch.cat((flow, batch_flow), dim=0)]: an empty one-dimensional
    tensor is skipped; otherwise all sizes but the first must agree. *)
Definition torch_cat (flow : Accum) (t : Tensor) : result Accum :=
  match flow with
  | Empty1D => Ok (Flow t)
  | Flow a =>
      if (dimC a =? dimC t)%nat && (dimH a =? dimH t)%nat && (dimW a =? dimW t)%nat
      then Ok (Flow {| dimN := dimN a + dimN t; dimC := dimC a;
                       dimH := dimH a; dimW := dimW a;
                       entry := fun n c y x =>
                         if (n <? dimN a)%nat then entry a n c y x
                         else entry t (n - dimN a) c y x |})
      else Raise RuntimeError
  end.

(** [d[key]]. *)
Fixpoint dict_get (d : FlowDict) (key : string) : result Tensor :=
  match d with
  | [] => Raise KeyError
  | (k, v) :: rest => if String.eqb k key then Ok v else dict_get rest key
  end.

Section WithCollaborators.
Context {X : Collaborators}.

(** [DataLoader(...)] refuses a batch size that is not positive. *)
Definition new_loader (data : list Sample) (bs : nat) (sh : bool) : result DataLoader :=
  if (bs =? 0)%nat then Raise ValueError
  else Ok {| dataset := data; batch_size := bs; shuffle := sh |}.

(** [len(loader)]: the number of batches, the last one counted. *)
Definition loader_len (dl : DataLoader) : nat :=
  ((List.length (dataset dl) + batch_size dl - 1) / batch_size dl)%nat.

(** The batches of the [k]-th pass over a loader. *)
Definition loader_batches (seed : Z) (k : nat) (dl : DataLoader) : list Batch :=
  let order := if shuffle dl then shuffled seed k (dataset dl) else dataset dl in
  map train_collate (batch_sampler (batch_size dl) order []).

(** Files: a checkpoint holds parameters, the export holds an array. *)
Inductive Blob : Type :=
| StateDict (p : Params)
| NpyArray (a : Accum).

Record FileSystem : Type := mkFS {
  dirs : list string;
  files : list (string * Blob)
}.

Definition is_dir (fs : FileSystem) (p : string) : bool :=
  existsb (String.eqb p) (dirs fs).

Fixpoint read_file (fl : list (string * Blob)) (p : string) : option Blob :=
  match fl with
  | [] => None
  | (q, b) :: rest => if String.eqb q p then Some b else read_file rest p
  end.

(** [os.path.exists]. *)
Definition path_exists (fs : FileSystem) (p : string) : bool :=
  is_dir fs p || match read_file (files fs) p with Some _ => true | None => false end.

(** [os.makedirs]. *)
Definition makedirs (fs : FileSystem) (p : string) : result FileSystem :=
  if path_exists fs p then Raise OSError
  else Ok {| dirs := p :: dirs fs; files := files fs |}.

(** Writing [name] inside the directory [parent] ([None] is the working
    directory): the parent must be a directory and the path must not be one. *)
Definition write_file (fs : FileSystem) (parent : option string) (name : string) (b : Blob)
  : result FileSystem :=
  let path := match parent with
              | Some d => (d ++ "/" ++ name)%string
              | None => name
              end in
  let parent_ok := match parent with
                   | Some d => is_dir fs d
                   | None => true
                   end in
  if parent_ok && negb (is_dir fs path)
  then Ok {| dirs := dirs fs; files := (path, b) :: files fs |}
  else Raise OSError.

(** [torch.load] and [model.load_state_dict]. *)
Definition load_state_dict (fs : FileSystem) (path : string) : result Params :=
  match read_file (files fs) path with
  | Some (StateDict p) => Ok p
  | Some (NpyArray _) => Raise RuntimeError
  | None => Raise OSError
  end.

(** The state of a run. *)
Record State : Type := mkState {
  params : Params;
  grads : option Grads;
  opt_state : OptState;
  lr : R;               (* the optimizer's learning rate *)
  last_epoch : nat;     (* the scheduler's counter *)
  training : bool;      (* [model.train()] / [model.eval()] *)
  passes : nat;         (* passes made over the training loader *)
  fs : FileSystem;
  log : list Event
}.

Definition emit (e : Event) (st : State) : State :=
  {| params := params st; grads := grads st; opt_state := opt_state st; lr := lr st;
     last_epoch := last_epoch st; training := training st; passes := passes st;
     fs := fs st; log := log st ++ [e] |}.

(** [optimizer.zero_grad()]. *)
Definition zero_grad (st : State) : State :=
  emit ZeroGrad
    {| params := params st; grads := None; opt_state := opt_state st; lr := lr st;
       last_epoch := last_epoch st; training := training st; passes := passes st;
       fs := fs st; log := log st |}.

(** The effect of [loss.backward()] on the stored gradients. *)
Definition store_grads (batch : Batch) (st : State) : State :=
  let g := autograd (params st) batch in
  emit BackwardPass
    {| params := params st;
       grads := Some (match grads st with
                      | None => g
                      | Some g0 => grad_add g0 g
                      end);
       opt_state := opt_state st; lr := lr st;
       last_epoch := last_epoch st; training := training st; passes := passes st;
       fs := fs st; log := log st |}.

(** [optimizer.step()]. *)
Definition optimizer_step (wd : R) (st : State) : State :=
  let '(p, o) := adam_step (lr st) wd (opt_state st) (params st) (grads st) in
  emit OptimizerStep
    {| params := p; grads := grads st; opt_state := o; lr := lr st;
       last_epoch := last_epoch st; training := training st; passes := passes st;
       fs := fs st; log := log st |}.

(** [StepLR(optimizer, step_size=10, gamma=0.1)]. *)
Definition step_size : nat := 10.
Definition gamma : R := 0.1.

(** [scheduler.step()]: the counter advances; when it reaches a multiple
    of [step_size] the learning rate is multiplied by [gamma]. *)
Definition scheduler_step (st : State) : State :=
  let e := S (last_epoch st) in
  emit SchedulerStep
    {| params := params st; grads := grads st; opt_state := opt_state st;
       lr := if (e mod step_size =? 0)%nat then lr st * gamma else lr st;
       last_epoch := e; training := training st; passes := passes st;
       fs := fs st; log := log st |}.

Definition set_training (b : bool) (st : State) : State :=
  {| params := params st; grads := grads st; opt_state := opt_state st; lr := lr st;
     last_epoch := last_epoch st; training := b; passes := passes st;
     fs := fs st; log := log st |}.

Definition set_params (p : Params) (st : State) : State :=
  {| params := p; grads := grads st; opt_state := opt_state st; lr := lr st;
     last_epoch := last_epoch st; training := training st; passes := passes st;
     fs := fs st; log := log st |}.

Definition set_fs (f : FileSystem) (st : State) : State :=
  {| params := params st; grads := grads st; opt_state := opt_state st; lr := lr st;
     last_epoch := last_epoch st; training := training st; passes := passes st;
     fs := f; log := log st |}.

Definition next_pass (st : State) : State :=
  {| params := params st; grads := grads st; opt_state := opt_state st; lr := lr st;
     last_epoch := last_epoch st; training := training st; passes := S (passes st);
     fs := fs st; log := log st |}.

(** The configuration the script reads. *)
Record Config : Type := mkConfig {
  seed : Z;
  epochs : Z;
  train_batch_size : nat;
  train_shuffle : bool;
  test_batch_size : nat;
  test_shuffle : bool;
  initial_learning_rate : R;
  weight_decay : R
}.

(** Lines 76-86: one batch. *)
Definition train_batch (wd : R) (i : nat) (batch : Batch) (st : State) (total_loss : scalar)
  : result (State * scalar) :=
  let event_image := event_volume batch in
  let ground_truth_flow := flow_gt batch in
  let flow_dict := EVFlowNet (training st) (params st) event_image in
  let st := emit (ForwardPass (training st)) st in
  loss <- compute_multiscale_epe_error flow_dict ground_truth_flow ;;
  shown <- item loss ;;
  let st := emit (PrintBatchLoss i shown) st in
  let st := zero_grad st in
  _ <- backward loss ;;
  let st := store_grads batch st in
  let st := optimizer_step wd st in
  v <- item loss ;;
  ret (st, scalar_add total_loss v).

(** Lines 75-86: the batches of one epoch, numbered from [i]. *)
Fixpoint train_batches (wd : R) (i : nat) (batches : list Batch) (st : State)
  (total_loss : scalar) : result (State * scalar) :=
  match batches with
  | [] => ret (st, total_loss)
  | batch :: rest =>
      r <- train_batch wd i batch st total_loss ;;
      train_batches wd (S i) rest (fst r) (snd r)
  end.

(** [total_loss / len(train_data)]. *)
Definition mean_loss (total_loss : scalar) (n : nat) : result scalar :=
  if (n =? 0)%nat then Raise ZeroDivisionError else Ok (scalar_div_nat total_loss n).

(** Lines 73-89: one epoch. *)
Definition train_epoch (args : Config) (train_data : DataLoader) (epoch : nat) (st : State)
  : result State :=
  let total_loss := Real 0 in
  let st := emit (PrintEpoch (epoch + 1)) st in
  let batches := loader_batches (seed args) (passes st) train_data in
  let st := next_pass st in
  r <- train_batches (weight_decay args) 0 batches st total_loss ;;
  m <- mean_loss (snd r) (loader_len train_data) ;;
  let st := emit (PrintEpochLoss (epoch + 1) m) (fst r) in
  ret (scheduler_step st).

(** Line 72: [for epoch in range(n)], from [epoch] on. *)
Fixpoint train_loop (args : Config) (train_data : DataLoader) (n : nat) (epoch : nat)
  (st : State) : result State :=
  match n with
  | O => ret st
  | S n' =>
      st' <- train_epoch args train_data epoch st ;;
      train_loop args train_data n' (S epoch) st'
  end.

(** Lines 104-108: the evaluation loop. *)
Fixpoint eval_batches (batches : list Batch) (st : State) (flow : Accum)
  : result (State * Accum) :=
  match batches with
  | [] => ret (st, flow)
  | batch :: rest =>
      let event_image := event_volume batch in
      let out := EVFlowNet (training st) (params st) event_image in
      let st := emit (ForwardPass (training st)) st in
      batch_flow <- dict_get out "flow3" ;;
      flow' <- torch_cat flow batch_flow ;;
      eval_batches rest st flow'
  end.

(** What the run finds: the two datasets, the files, the clock. *)
Record Environment : Type := mkEnv {
  train_set : list Sample;
  test_set : list Sample;
  initial_fs : FileSystem;
  current_time : string     (* [time.strftime("%Y%m%d%H%M%S")] *)
}.

Definition model_path (env : Environment) : string :=
  ("checkpoints/model_" ++ current_time env ++ ".pth")%string.

(** Lines 91-97: the checkpoint. *)
Definition save_checkpoint (env : Environment) (st : State) : result State :=
  st <- (if path_exists (fs st) "checkpoints" then ret st
         else f <- makedirs (fs st) "checkpoints" ;;
              ret (emit (MakeDirs "checkpoints") (set_fs f st))) ;;
  f <- write_file (fs st) (Some "checkpoints"%string)
         ("model_" ++ current_time env ++ ".pth")%string (StateDict (params st)) ;;
  ret (emit (TorchSave (model_path env)) (set_fs f st)).

(** Lines 99-112: reload and evaluate. *)
Definition evaluate (args : Config) (env : Environment) (test_data : DataLoader) (st : State)
  : result (State * Accum) :=
  p <- load_state_dict (fs st) (model_path env) ;;
  let st := emit (TorchLoad (model_path env)) (set_params p st) in
  let st := set_training false st in
  let st := emit PrintStartTest st in
  r <- eval_batches (loader_batches (seed args) (passes st) test_data) st Empty1D ;;
  let st := emit PrintTestDone (fst r) in
  f <- write_file (fs st) None "submission.npy" (NpyArray (snd r)) ;;
  ret (emit (NumpySave "submission.npy") (set_fs f st), snd r).

Definition initial_state (args : Config) (env : Environment) : State :=
  let model := init_params (seed args) in
  {| params := model; grads := None; opt_state := adam_init model;
     lr := initial_learning_rate args; last_epoch := 0;
     training := true; passes := 0; fs := initial_fs env; log := [] |}.

(** [main]: the final state and the exported array. *)
Definition main (args : Config) (env : Environment) : result (State * Accum) :=
  train_data <- new_loader (train_set env) (train_batch_size args) (train_shuffle args) ;;
  test_data <- new_loader (test_set env) (test_batch_size args) (test_shuffle args) ;;
  st <- train_loop args train_data (Z.to_nat (epochs args)) 0 (initial_state args env) ;;
  st <- save_checkpoint env st ;;
  evaluate args env test_data st.

(** ** What the script relies on from its collaborators *)

(** Collation stacks the samples of a batch along the first dimension. *)
Definition collate_stacks : Prop :=
  forall l : list Sample, dimN (event_volume (train_collate l)) = List.length l.

(** The network answers with a ["flow3"] entry that has one flow field
    per input item, at a fixed resolution. *)
Definition model_gives_flow3 (c h w : nat) : Prop :=
  forall (mode : bool) (p : Params) (x : Tensor),
  exists t, dict_get (EVFlowNet mode p x) "flow3" = Ok t
            /\ dimN t = dimN x /\ dimC t = c /\ dimH t = h /\ dimW t = w.

(** Shuffling reorders and neither drops nor repeats. *)
Definition shuffle_keeps_length : Prop :=
  forall (s : Z) (k : nat) (l : list Sample), List.length (shuffled s k l) = List.length l.


(** The leading dimension of the array a run left in [submission.npy]. *)
Definition exported_rows (r : result (State * Accum)) : option nat :=
  match r with
  | Ok (st, _) =>
      match read_file (files (fs st)) "submission.npy" with
      | Some (NpyArray a) => Some (leading_dim a)
      | _ => None
      end
  | Raise _ => None
  end.

End WithCollaborators.

(** ** The claims' words *)

(** The events of one batch, in order: the forward pass and the printed
    loss, then gradients zeroed, backpropagation, one optimizer step. *)
Definition batch_trace (i : nat) (loss : scalar) : list Event :=
  [ForwardPass true; PrintBatchLoss i loss; ZeroGrad; BackwardPass; OptimizerStep].





(** An event of the training loop. *)
Definition is_training_event (e : Event) : bool :=
  match e with
  | PrintEpoch _ | ForwardPass true | PrintBatchLoss _ _ | ZeroGrad | BackwardPass
  | OptimizerStep | PrintEpochLoss _ _ | SchedulerStep => true
  | _ => false
  end.

(** The shape the accumulated output keeps. *)
Definition accum_shape (c h w : nat) (a : Accum) : Prop :=
  match a with
  | Empty1D => True
  | Flow t => dimC t = c /\ dimH t = h /\ dimW t = w
  end.

End Driver.

(* ================================================================== *)
(** * A small instance of the collaborators *)
(* ================================================================== *)

Module Toy.
Import Driver Inputs.

Local Open Scope R_scope.

(** Samples are numbers; a batch of [n] samples is collated to an
    [n x 4 x 1 x 1] event volume and an [n x 2 x 1 x 1] flow; the network
    answers with one zero flow field per item and ignores its parameters. *)
Definition toy : Collaborators :=
  {| Params := unit; Grads := unit; OptState := unit; Sample := nat;
     init_params := fun _ => tt;
     EVFlowNet := fun _ _ x => [("flow3"%string, const_tensor (dimN x) 2 1 1 0)];
     autograd := fun _ _ => tt;
     grad_add := fun _ _ => tt;
     adam_init := fun _ => tt;
     adam_step := fun _ _ o p _ => (p, o);
     train_collate := fun l => {| event_volume := const_tensor (List.length l) 4 1 1 0;
                                  flow_gt := const_tensor (List.length l) 2 1 1 0 |};
     shuffled := fun _ _ l => rev l |}.

Definition toy_env : Environment (X := toy) :=
  @mkEnv toy [1; 2; 3]%nat [1; 2; 3; 4; 5]%nat (@mkFS toy [] []) "20240101120000".

(** [n] epochs, batches of two, no shuffling. *)
Definition toy_args (n : Z) : Config :=
  {| seed := 0; epochs := n; train_batch_size := 2; train_shuffle := false;
     test_batch_size := 2; test_shuffle := false;
     initial_learning_rate := 1; weight_decay := 0 |}.

Definition toy_test_data : DataLoader (X := toy) :=
  @mkLoader toy [1; 2; 3; 4; 5]%nat 2 false.


(** A state whose file system holds a checkpoint. *)
Definition toy_saved : State (X := toy) :=
  @mkState toy tt None tt 1 0 true 0
    (@mkFS toy ["checkpoints"%string] [(model_path toy_env, @StateDict toy tt)]) [].

End Toy.

(* ================================================================== *)
(** * More of the script *)
(* ================================================================== *)

From Stdlib Require Import Permutation.
From Stdlib Require Lqa.

Module More.
Import Driver.

Local Open Scope R_scope.


(** Every scale of the mapping has an endpoint error. *)
Definition all_scales_defined (preds : FlowDict) (gt : Tensor) : Prop :=
  Forall (fun kp => exists x, scale_epe (snd kp) gt = Ok x) preds.

(** The prediction is the resized ground truth at every entry. *)
Definition matches_resized_gt (pred gt : Tensor) : Prop :=
  forall n c y x,
    (n < dimN pred)%nat -> (c < dimC pred)%nat -> (y < dimH pred)%nat -> (x < dimW pred)%nat ->
    entry pred n c y x = entry (Spec.scaled_gt pred gt) n c y x.

(** The ground truth is [2^k] times the prediction in height and width. *)
Definition power_of_two_scale (pred gt : Tensor) : Prop :=
  exists k : Z, (0 <= k)%Z
    /\ dimH gt = (dimH pred * Z.to_nat (2 ^ k))%nat
    /\ dimW gt = (dimW pred * Z.to_nat (2 ^ k))%nat.

(** The relative error of one rounding to binary64 is at most [2^-53]. *)
Definition eps : Q := 1 # 9007199254740992.


(** ** [set_seed] (lines 21-27) *)

(** The randomness sources of a run and the two cuDNN switches. A
    generator is described by the seed it was last given. *)
Record RandomState : Type := mkRandom {
  python_seed : option Z;          (* [random] *)
  torch_seed : option Z;           (* [torch]'s default generator *)
  cuda_seed : option Z;            (* the generators of all CUDA devices *)
  cudnn_deterministic : bool;
  cudnn_benchmark : bool;
  numpy_seed : option Z            (* [numpy.random] *)
}.

(** [torch.manual_seed] and [torch.cuda.manual_seed_all] take a seed in
    the range [-2^63, 2^64 - 1]. *)
Definition torch_seed_ok (seed : Z) : bool :=
  ((- 2 ^ 63 <=? seed) && (seed <=? 2 ^ 64 - 1))%Z.

(** [numpy.random.seed] takes a seed in the range [0, 2^32 - 1]. *)
Definition numpy_seed_ok (seed : Z) : bool :=
  ((0 <=? seed) && (seed <=? 2 ^ 32 - 1))%Z.

Definition set_seed (seed : Z) (r : RandomState) : result RandomState :=
  (* random.seed(seed) *)
  let r := {| python_seed := Some seed; torch_seed := torch_seed r; cuda_seed := cuda_seed r;
              cudnn_deterministic := cudnn_deterministic r;
              cudnn_benchmark := cudnn_benchmark r; numpy_seed := numpy_seed r |} in
  (* torch.manual_seed(seed) *)
  r <- (if torch_seed_ok seed
        then Ok {| python_seed := python_seed r; torch_seed := Some seed;
                   cuda_seed := cuda_seed r;
                   cudnn_deterministic := cudnn_deterministic r;
                   cudnn_benchmark := cudnn_benchmark r; numpy_seed := numpy_seed r |}
        else Raise RuntimeError) ;;
  (* torch.cuda.manual_seed_all(seed) *)
  r <- (if torch_seed_ok seed
        then Ok {| python_seed := python_seed r; torch_seed := torch_seed r;
                   cuda_seed := Some seed;
                   cudnn_deterministic := cudnn_deterministic r;
                   cudnn_benchmark := cudnn_benchmark r; numpy_seed := numpy_seed r |}
        else Raise RuntimeError) ;;
  (* torch.backends.cudnn.deterministic = True; torch.backends.cudnn.benchmark = False *)
  let r := {| python_seed := python_seed r; torch_seed := torch_seed r;
              cuda_seed := cuda_seed r;
              cudnn_deterministic := true; cudnn_benchmark := false;
              numpy_seed := numpy_seed r |} in
  (* np.random.seed(seed) *)
  if numpy_seed_ok seed
  then Ok {| python_seed := python_seed r; torch_seed := torch_seed r;
             cuda_seed := cuda_seed r;
             cudnn_deterministic := cudnn_deterministic r;
             cudnn_benchmark := cudnn_benchmark r; numpy_seed := Some seed |}
  else Raise ValueError.

(** The state every successful [set_seed seed] leaves. *)
Definition seeded (seed : Z) : RandomState :=
  {| python_seed := Some seed; torch_seed := Some seed; cuda_seed := Some seed;
     cudnn_deterministic := true; cudnn_benchmark := false; numpy_seed := Some seed |}.

(** Lines 42-112: [set_seed(args.seed)], then the rest of [main]. *)
Definition script {X : Collaborators} (args : Config) (env : Environment) (r : RandomState)
  : result (RandomState * (State * Accum)) :=
  r' <- set_seed (seed args) r ;;
  out <- main args env ;;
  ret (r', out).

(** ** The parameter updates of an epoch *)

(** One optimizer step on the gradient of one batch, taken at the
    current parameters. *)
Definition update {X : Collaborators} (rate wd : R) (po : Params * OptState) (b : Batch)
  : Params * OptState :=
  adam_step rate wd (snd po) (fst po) (Some (autograd (fst po) b)).

(** ** The rows of the exported array *)

Definition rows_before (batches : list Batch) (j : nat) : nat :=
  list_sum (map (fun b => dimN (event_volume b)) (firstn j batches)).

(** Entry of the accumulated output (an empty accumulator has none). *)
Definition acc_entry (a : Accum) : nat -> nat -> nat -> nat -> R :=
  match a with
  | Empty1D => fun _ _ _ _ => 0
  | Flow t => entry t
  end.

(** The ["flow3"] output has one flow field per item of the input. *)
Definition model_keeps_batch {X : Collaborators} : Prop :=
  forall (mode : bool) (p : Params) (x t : Tensor),
    dict_get (EVFlowNet mode p x) "flow3" = Ok t -> dimN t = dimN x.

Definition non_training_event (e : Event) : Prop := is_training_event e = false.

Definition training_event (e : Event) : Prop := is_training_event e = true.


(** ** Two more small instances *)

(** The small instance with a network that returns no scale at all. *)
Definition mute : Collaborators :=
  {| Params := unit; Grads := unit; OptState := unit; Sample := nat;
     init_params := fun _ => tt;
     EVFlowNet := fun _ _ _ => [];
     autograd := fun _ _ => tt;
     grad_add := fun _ _ => tt;
     adam_init := fun _ => tt;
     adam_step := fun _ _ o p _ => (p, o);
     train_collate := fun l => {| event_volume := Inputs.const_tensor (List.length l) 4 1 1 0;
                                  flow_gt := Inputs.const_tensor (List.length l) 2 1 1 0 |};
     shuffled := fun _ _ l => rev l |}.

Definition mute_env : Environment (X := mute) :=
  @mkEnv mute [1; 2; 3]%nat [1; 2; 3; 4; 5]%nat (@mkFS mute [] []) "20240101120000".

Definition mute_saved : State (X := mute) :=
  @mkState mute tt None tt 1 0 true 0
    (@mkFS mute ["checkpoints"%string] [(model_path mute_env, @StateDict mute tt)]) [].

Definition mute_test_data : DataLoader (X := mute) :=
  @mkLoader mute [1; 2; 3; 4; 5]%nat 2 false.



(** The two batches of its training set. *)
Definition toy_groups : list (list (@Sample Toy.toy)) := [[1; 2]; [3]]%nat.

End More.

(** * Part II: facts *)

(* ================================================================== *)
(** * Binary64 rounding: agreement with the primitive floats, exact cases *)
(* ================================================================== *)

Module Float64Facts.
Import Float64.
Local Open Scope Q_scope.

Lemma pow2_pos k : 0 < pow2 k.
Proof. unfold pow2. apply Qpower_0_lt. reflexivity. Qed.

Lemma pow2_add a b : pow2 (a + b) == pow2 a * pow2 b.
Proof. unfold pow2. apply Qpower_plus. discriminate. Qed.

Lemma pow2_0 : pow2 0 == 1.
Proof. reflexivity. Qed.

Lemma pow2_le a b : (a <= b)%Z -> pow2 a <= pow2 b.
Proof. intros. unfold pow2. apply Qpower_le_compat_l; [assumption | discriminate]. Qed.

Lemma pow2_lt a b : (a < b)%Z -> pow2 a < pow2 b.
Proof. intros. unfold pow2. apply Qpower_lt_compat_l; [assumption | reflexivity]. Qed.

Lemma pow2_inject k : (0 <= k)%Z -> pow2 k == inject_Z (2 ^ k).
Proof. intros. unfold pow2. symmetry. apply (Zpower_Qpower 2 k). assumption. Qed.

Lemma bracket_unique x a b :
  pow2 a <= x -> x < pow2 (a + 1) -> pow2 b <= x -> x < pow2 (b + 1) -> a = b.
Proof.
  intros Ha1 Ha2 Hb1 Hb2.
  destruct (Z.lt_trichotomy a b) as [H | [H | H]]; [exfalso | assumption | exfalso].
  - assert (pow2 (a + 1) <= pow2 b) by (apply pow2_le; lia).
    apply (Qlt_irrefl x). eapply Qlt_le_trans; [exact Ha2|]. eapply Qle_trans; eassumption.
  - assert (pow2 (b + 1) <= pow2 a) by (apply pow2_le; lia).
    apply (Qlt_irrefl x). eapply Qlt_le_trans; [exact Hb2|]. eapply Qle_trans; eassumption.
Qed.

Lemma Q_num_den (x : Q) : x * inject_Z (Zpos (Qden x)) == inject_Z (Qnum x).
Proof. destruct x as [n d]. unfold Qeq, Qmult, inject_Z. simpl. rewrite Pos.mul_1_r. ring. Qed.

Lemma ilog2_spec x : 0 < x -> pow2 (ilog2 x) <= x /\ x < pow2 (ilog2 x + 1).
Proof.
  intros Hx.
  assert (Hn : (0 < Qnum x)%Z).
  { destruct x as [n d]. unfold Qlt in Hx. cbn [Qnum Qden] in *. change (Qnum 0) with 0%Z in Hx. change (Zpos (Qden 0)) with 1%Z in Hx. lia. }
  pose proof (Z.log2_spec (Qnum x) Hn) as [Hn1 Hn2].
  pose proof (Z.log2_spec (Zpos (Qden x)) (Pos2Z.is_pos _)) as [Hd1 Hd2].
  rewrite <- Z.add_1_r in Hn2, Hd2.
  pose proof (Z.log2_nonneg (Qnum x)) as Hln.
  pose proof (Z.log2_nonneg (Zpos (Qden x))) as Hld.
  set (ln := Z.log2 (Qnum x)) in *. set (ld := Z.log2 (Zpos (Qden x))) in *.
  pose proof (Q_num_den x) as Hxd.
  unfold ilog2. fold ln ld.
  destruct (Qle_bool (pow2 (ln - ld)) x) eqn:Hc.
  - split; [apply Qle_bool_iff; exact Hc|].
    apply (Qmult_lt_r _ _ (pow2 ld)); [apply pow2_pos|].
    rewrite <- pow2_add. replace (ln - ld + 1 + ld)%Z with (ln + 1)%Z by lia.
    apply Qle_lt_trans with (inject_Z (Qnum x)).
    + rewrite <- Hxd. apply Qmult_le_l; [assumption|].
      rewrite pow2_inject by assumption. rewrite <- Zle_Qle. assumption.
    + rewrite pow2_inject by lia. rewrite <- Zlt_Qlt. assumption.
  - assert (Hlt : x < pow2 (ln - ld)).
    { apply Qnot_le_lt. intros H. apply Qle_bool_iff in H. congruence. }
    split; [| replace (ln - ld - 1 + 1)%Z with (ln - ld)%Z by lia; assumption].
    apply (Qmult_le_r _ _ (pow2 (ld + 1))); [apply pow2_pos|].
    rewrite <- pow2_add. replace (ln - ld - 1 + (ld + 1))%Z with ln by lia.
    apply Qle_trans with (inject_Z (Qnum x)).
    + rewrite pow2_inject by assumption. rewrite <- Zle_Qle. assumption.
    + rewrite <- Hxd. apply Qmult_le_l; [assumption|].
      rewrite pow2_inject by lia. rewrite <- Zle_Qle. lia.
Qed.

Lemma ilog2_bracket x e : pow2 e <= x -> x < pow2 (e + 1) -> ilog2 x = e.
Proof.
  intros H1 H2.
  assert (Hx : 0 < x) by (eapply Qlt_le_trans; [apply (pow2_pos e) | assumption]).
  destruct (ilog2_spec x Hx) as [H3 H4].
  eapply bracket_unique; eassumption.
Qed.

Lemma rne_inject (s : Q) (m : Z) : s == inject_Z m -> rne s = m.
Proof.
  intros Hs. unfold rne.
  assert (Hf : Qfloor s = m) by (rewrite Hs; apply Qfloor_Z).
  rewrite Hf.
  assert (Hc : Qcompare (s - inject_Z m) (1 # 2) = Lt).
  { rewrite Hs. apply (proj1 (Qlt_alt _ _)).
    setoid_replace (inject_Z m - inject_Z m) with 0 by ring. reflexivity. }
  rewrite Hc. reflexivity.
Qed.

(** A number with a 53-bit significand is its own rounding. *)
Lemma round64_normal (x : Q) (m k : Z) :
  (2 ^ 52 <= m < 2 ^ 53)%Z -> x == inject_Z m * pow2 k -> round64 x == x.
Proof.
  intros Hm Hx.
  assert (Hmq : pow2 52 <= inject_Z m /\ inject_Z m < pow2 53).
  { rewrite !pow2_inject by lia. rewrite <- Zle_Qle, <- Zlt_Qlt. exact Hm. }
  destruct Hmq as [Hm1 Hm2].
  assert (Hpos : 0 < x).
  { rewrite Hx. apply Qmult_lt_0_compat; [|apply pow2_pos].
    eapply Qlt_le_trans; [apply (pow2_pos 52) | assumption]. }
  assert (He : ilog2 (Qabs x) = (k + 52)%Z).
  { apply ilog2_bracket; rewrite Qabs_pos by (apply Qlt_le_weak; assumption); rewrite Hx.
    - rewrite Z.add_comm, pow2_add. apply Qmult_le_r; [apply pow2_pos | assumption].
    - replace (k + 52 + 1)%Z with (53 + k)%Z by lia. rewrite pow2_add.
      apply Qmult_lt_r; [apply pow2_pos | assumption]. }
  unfold round64.
  destruct (Qeq_bool x 0) eqn:Hz.
  - apply Qeq_bool_iff in Hz. rewrite Hz in Hpos. discriminate.
  - rewrite He. rewrite Qred_correct.
    assert (Hs : x * pow2 (prec - 1 - (k + 52)) == inject_Z m).
    { rewrite Hx. unfold prec. replace (53 - 1 - (k + 52))%Z with (- k)%Z by lia.
      rewrite <- Qmult_assoc, <- pow2_add. replace (k + - k)%Z with 0%Z by lia.
      rewrite pow2_0. ring. }
    rewrite (rne_inject _ _ Hs). rewrite Hx. unfold prec.
    replace (k + 52 - (53 - 1))%Z with k by lia. reflexivity.
Qed.

Lemma ilog2_comp x y : 0 < x -> x == y -> ilog2 x = ilog2 y.
Proof.
  intros Hx Hxy.
  assert (Hy : 0 < y) by (rewrite <- Hxy; assumption).
  destruct (ilog2_spec x Hx) as [H1 H2]. destruct (ilog2_spec y Hy) as [H3 H4].
  set (e := ilog2 x) in *. rewrite Hxy in H1, H2. eapply bracket_unique; eassumption.
Qed.

Lemma rne_comp x y : x == y -> rne x = rne y.
Proof.
  intros H. unfold rne. rewrite (Qfloor_comp x y H).
  rewrite (Qcompare_comp (x - inject_Z (Qfloor y)) (y - inject_Z (Qfloor y))
             ltac:(rewrite H; reflexivity) (1 # 2) (1 # 2) ltac:(reflexivity)).
  reflexivity.
Qed.

(** [round64] depends on the value of its argument only, and its result
    is in lowest terms. *)
Lemma round64_comp x y : x == y -> round64 x = round64 y.
Proof.
  intros H. unfold round64.
  destruct (Qeq_bool x 0) eqn:Hx, (Qeq_bool y 0) eqn:Hy; try reflexivity.
  - apply Qeq_bool_iff in Hx. rewrite H in Hx. apply Qeq_bool_iff in Hx. congruence.
  - apply Qeq_bool_iff in Hy. rewrite <- H in Hy. apply Qeq_bool_iff in Hy. congruence.
  - assert (Hnz : ~ x == 0) by (intros E; apply Qeq_bool_iff in E; congruence).
    assert (Ha : 0 < Qabs x).
    { destruct (Qlt_le_dec 0 x) as [Hp | Hn].
      - rewrite Qabs_pos by (apply Qlt_le_weak; assumption). assumption.
      - rewrite Qabs_neg by assumption.
        destruct (Qle_lt_or_eq _ _ Hn) as [Hl | He]; [| contradiction].
        apply (Qopp_lt_compat x 0) in Hl. exact Hl. }
    rewrite (ilog2_comp (Qabs x) (Qabs y) Ha) by (rewrite H; reflexivity).
    apply Qred_complete. rewrite (rne_comp _ (y * pow2 (prec - 1 - ilog2 (Qabs y)))).
    + reflexivity.
    + rewrite H. reflexivity.
Qed.

Lemma round64_Z (n : Z) : (0 <= n < 2 ^ 53)%Z -> round64 (inject_Z n) == inject_Z n.
Proof.
  intros Hn. destruct (Z.eq_dec n 0) as [-> | Hnz]; [reflexivity|].
  assert (Hpos : (0 < n)%Z) by lia.
  destruct (Z.log2_spec n Hpos) as [H1 H2]. rewrite <- Z.add_1_r in H2.
  pose proof (Z.log2_nonneg n) as Hl.
  assert (Hl52 : (Z.log2 n <= 52)%Z).
  { destruct (Z.le_gt_cases (Z.log2 n) 52) as [|Hgt]; [assumption|].
    assert ((2 ^ 53 <= 2 ^ Z.log2 n)%Z) by (apply Z.pow_le_mono_r; lia). lia. }
  set (l := Z.log2 n) in *.
  apply (round64_normal _ (n * 2 ^ (52 - l)) (l - 52)).
  - replace (2 ^ 52)%Z with (2 ^ l * 2 ^ (52 - l))%Z
      by (rewrite <- Z.pow_add_r by lia; f_equal; lia).
    replace (2 ^ 53)%Z with (2 ^ (l + 1) * 2 ^ (52 - l))%Z
      by (rewrite <- Z.pow_add_r by lia; f_equal; lia).
    assert (0 < 2 ^ (52 - l))%Z by (apply Z.pow_pos_nonneg; lia).
    split; [apply Z.mul_le_mono_nonneg_r | apply Z.mul_lt_mono_pos_r]; lia.
  - rewrite inject_Z_mult. rewrite <- (pow2_inject (52 - l)) by lia.
    rewrite <- Qmult_assoc, <- pow2_add.
    replace (52 - l + (l - 52))%Z with 0%Z by lia. rewrite pow2_0. ring.
Qed.

Lemma round64_pow2 (k : Z) : round64 (pow2 k) == pow2 k.
Proof.
  apply (round64_normal _ (2 ^ 52) (k - 52)); [lia|].
  rewrite <- (pow2_inject 52) by lia. rewrite <- pow2_add. 
  replace (52 + (k - 52))%Z with k by lia. reflexivity.
Qed.

Lemma rne_ge_floor (s : Q) : (Qfloor s <= rne s)%Z.
Proof.
  unfold rne. destruct (Qcompare _ _); [destruct (Z.even _) | |]; lia.
Qed.

(** The rounding of a positive number is positive. *)
Lemma round64_pos (x : Q) : 0 < x -> 0 < round64 x.
Proof.
  intros Hx. unfold round64.
  destruct (Qeq_bool x 0) eqn:Hz.
  { apply Qeq_bool_iff in Hz. rewrite Hz in Hx. discriminate. }
  rewrite Qred_correct.
  assert (Ha : 0 < Qabs x) by (rewrite Qabs_pos by (apply Qlt_le_weak; assumption); assumption).
  destruct (ilog2_spec (Qabs x) Ha) as [He _].
  set (e := ilog2 (Qabs x)) in *.
  rewrite Qabs_pos in He by (apply Qlt_le_weak; assumption).
  apply Qmult_lt_0_compat; [| apply pow2_pos].
  assert (Hs : inject_Z (2 ^ 52) <= x * pow2 (prec - 1 - e)).
  { rewrite <- pow2_inject by lia.
    replace 52%Z with (e + (prec - 1 - e))%Z at 1 by (unfold prec; lia).
    rewrite pow2_add. apply Qmult_le_r; [apply pow2_pos | assumption]. }
  apply Qfloor_resp_le in Hs. rewrite Qfloor_Z in Hs.
  pose proof (rne_ge_floor (x * pow2 (prec - 1 - e))) as Hr.
  change 0 with (inject_Z 0). rewrite <- Zlt_Qlt.
  assert (0 < 2 ^ 52)%Z by (apply Z.pow_pos_nonneg; lia). lia.
Qed.

Lemma fdiv_pos (a b : Z) : (0 < a)%Z -> (0 < b)%Z -> 0 < fdiv (inject_Z a) (inject_Z b).
Proof.
  intros Ha Hb. unfold fdiv. apply round64_pos.
  apply Qlt_shift_div_l.
  - change 0 with (inject_Z 0). rewrite <- Zlt_Qlt. assumption.
  - rewrite Qmult_0_l. change 0 with (inject_Z 0). rewrite <- Zlt_Qlt. assumption.
Qed.

Lemma trunc_comp x y : x == y -> trunc x = trunc y.
Proof.
  intros H. unfold trunc.
  rewrite (Qfloor_comp x y H), (Qceiling_comp x y H).
  replace (Qle_bool 0 y) with (Qle_bool 0 x); [reflexivity|].
  destruct (Qle_bool 0 x) eqn:Hx, (Qle_bool 0 y) eqn:Hy; try reflexivity.
  - apply Qle_bool_iff in Hx. rewrite H in Hx. apply Qle_bool_iff in Hx. congruence.
  - apply Qle_bool_iff in Hy. rewrite <- H in Hy. apply Qle_bool_iff in Hy. congruence.
Qed.

Lemma trunc_Z (n : Z) : trunc (inject_Z n) = n.
Proof. unfold trunc. destruct (Qle_bool 0 (inject_Z n)); [apply Qfloor_Z | apply Qceiling_Z]. Qed.

(** [x / x] is [1.0]. *)
Lemma fdiv_same (n : Z) : n <> 0%Z -> fdiv (inject_Z n) (inject_Z n) = 1.
Proof.
  intros Hn. unfold fdiv. rewrite (round64_comp _ 1); [reflexivity|].
  field. intros E. apply Hn. apply (inject_Z_injective n 0). exact E.
Qed.

(** Multiplying a size by [1.0] and truncating gives the size back. *)
Lemma trunc_fmul_one (n : Z) : (0 <= n < 2 ^ 53)%Z -> trunc (fmul (inject_Z n) 1) = n.
Proof.
  intros Hn. unfold fmul. rewrite (round64_comp _ (inject_Z n)) by ring.
  rewrite (trunc_comp _ _ (round64_Z n Hn)). apply trunc_Z.
Qed.

(** A quotient that is a power of two is exact ... *)
Lemma fdiv_pow2 (h k : Z) :
  (0 < h)%Z -> (0 <= k)%Z -> fdiv (inject_Z h) (inject_Z (h * 2 ^ k)) == pow2 (- k).
Proof.
  intros Hh Hk. unfold fdiv.
  rewrite (round64_comp _ (pow2 (- k))); [apply round64_pow2|].
  rewrite inject_Z_mult, <- (pow2_inject k) by assumption.
  assert (~ inject_Z h == 0) by (intros E; apply (inject_Z_injective h 0) in E; lia).
  assert (~ pow2 k == 0) by (intros E; pose proof (pow2_pos k) as P; rewrite E in P; discriminate).
  assert (Hb : pow2 (- k) == / pow2 k) by (unfold pow2; apply Qpower_opp).
  rewrite Hb. field. split; assumption.
Qed.

(** ... and then the product with the full size truncates to the small size. *)
Lemma trunc_fmul_pow2 (w k : Z) (sf : Q) :
  (0 <= w)%Z -> (0 <= k)%Z -> (w * 2 ^ k < 2 ^ 53)%Z -> sf == pow2 (- k) ->
  trunc (fmul (inject_Z (w * 2 ^ k)) sf) = w.
Proof.
  intros Hw Hk Hb Hsf. unfold fmul.
  assert (0 < 2 ^ k)%Z by (apply Z.pow_pos_nonneg; lia).
  rewrite (round64_comp _ (inject_Z w)).
  - rewrite (trunc_comp _ _ (round64_Z w ltac:(nia))). apply trunc_Z.
  - rewrite Hsf, inject_Z_mult, <- (pow2_inject k) by assumption.
    rewrite <- Qmult_assoc, <- pow2_add. replace (k + - k)%Z with 0%Z by lia.
    rewrite pow2_0. ring.
Qed.

(** [round64] and the prover's primitive binary64 numbers compute the same
    quotient [a / b] and the same product [b * (a / b)] for all sizes up to 64. *)
Lemma round64_agrees_with_primitive_floats : agree_upto 64 = true.
Proof. vm_compute. reflexivity. Qed.

End Float64Facts.

(* ================================================================== *)
(** * The backend operations *)
(* ================================================================== *)

Module TorchFacts.
Import Float64 Float64Facts Torch.
Local Open Scope R_scope.

Lemma sum_upto_ext (n : nat) (f g : nat -> R) :
  (forall i, (i < n)%nat -> f i = g i) -> sum_upto n f = sum_upto n g.
Proof.
  induction n as [| n IH]; intros H; simpl; [reflexivity|].
  rewrite IH by (intros i Hi; apply H; lia). rewrite H by lia. reflexivity.
Qed.

Lemma sum_upto_nonneg (n : nat) (f : nat -> R) :
  (forall i, (i < n)%nat -> 0 <= f i) -> 0 <= sum_upto n f.
Proof.
  induction n as [| n IH]; intros H; simpl; [lra|].
  assert (0 <= sum_upto n f) by (apply IH; intros i Hi; apply H; lia).
  assert (0 <= f n) by (apply H; lia). lra.
Qed.


Lemma broadcast_dim_same (a : nat) : broadcast_dim a a = Some a.
Proof. unfold broadcast_dim. rewrite Nat.eqb_refl. reflexivity. Qed.

(** What a successful [interpolate] returns. *)
Lemma interpolate_ok (t : Tensor) (sf : Q) (t' : Tensor) :
  interpolate t sf = Ok t' ->
  (0 < dimC t)%nat /\ (0 < dimH t)%nat /\ (0 < dimW t)%nat
  /\ (0 < output_size (dimH t) sf)%Z /\ (0 < output_size (dimW t) sf)%Z
  /\ t' = {| dimN := dimN t; dimC := dimC t;
             dimH := Z.to_nat (output_size (dimH t) sf);
             dimW := Z.to_nat (output_size (dimW t) sf);
             entry := bilinear_entry t
                        (compute_scale sf (dimH t) (Z.to_nat (output_size (dimH t) sf)))
                        (compute_scale sf (dimW t) (Z.to_nat (output_size (dimW t) sf))) |}.
Proof.
  unfold interpolate. intros H.
  destruct ((0 <? dimC t)%nat && (0 <? dimH t)%nat && (0 <? dimW t)%nat
            && (0 <? output_size (dimH t) sf)%Z && (0 <? output_size (dimW t) sf)%Z) eqn:E;
    [| discriminate].
  repeat (apply andb_prop in E; destruct E as [E ?]).
  repeat match goal with
         | H : (_ <? _)%nat = true |- _ => apply Nat.ltb_lt in H
         | H : (_ <? _)%Z = true |- _ => apply Z.ltb_lt in H
         end.
  injection H as <-. repeat split; assumption.
Qed.

Lemma interpolate_total (t : Tensor) (sf : Q) :
  (0 < dimC t)%nat -> (0 < dimH t)%nat -> (0 < dimW t)%nat ->
  (0 < output_size (dimH t) sf)%Z -> (0 < output_size (dimW t) sf)%Z ->
  exists t', interpolate t sf = Ok t'.
Proof.
  intros Hc Hh Hw Hoh How. unfold interpolate.
  apply Nat.ltb_lt in Hc, Hh, Hw. apply Z.ltb_lt in Hoh, How.
  rewrite Hc, Hh, Hw, Hoh, How. simpl. eexists. reflexivity.
Qed.

(** The source pixels of [index_and_lambda] lie inside the input. *)
Lemma index_and_lambda_range (scale : Q) (in_size dst i0 i1 : nat) (lam : Q) :
  (0 < in_size)%nat -> index_and_lambda scale in_size dst = (i0, i1, lam) ->
  (i0 < in_size)%nat /\ (i1 < in_size)%nat.
Proof.
  intros Hin. unfold index_and_lambda. intros E. injection E as <- <- _.
  assert (Hs : (0 <= source_index scale dst)%Q).
  { unfold source_index.
    destruct (Qle_bool 0 _) eqn:Hb; [apply Qle_bool_iff; exact Hb | apply Qle_refl]. }
  assert (Hf : (0 <= Qfloor (source_index scale dst))%Z).
  { change 0%Z with (Qfloor 0). apply Qfloor_resp_le. exact Hs. }
  set (f := Qfloor (source_index scale dst)) in *.
  destruct (Z.ltb_spec (Z.min f (Z.of_nat in_size - 1)) (Z.of_nat in_size - 1)); lia.
Qed.

(** A bilinear combination of equal values is that value. *)
Lemma bilinear_entry_const (t : Tensor) (sh sw : Q) (n c y x : nat) (k : R) :
  (0 < dimH t)%nat -> (0 < dimW t)%nat ->
  (forall y' x', (y' < dimH t)%nat -> (x' < dimW t)%nat -> entry t n c y' x' = k) ->
  bilinear_entry t sh sw n c y x = k.
Proof.
  intros Hh Hw Hk. unfold bilinear_entry.
  destruct (index_and_lambda sh (dimH t) y) as [[y0 y1] ly] eqn:Ey.
  destruct (index_and_lambda sw (dimW t) x) as [[x0 x1] lx] eqn:Ex.
  destruct (index_and_lambda_range _ _ _ _ _ _ Hh Ey) as [Hy0 Hy1].
  destruct (index_and_lambda_range _ _ _ _ _ _ Hw Ex) as [Hx0 Hx1].
  rewrite !Hk by assumption. ring.
Qed.

(** At scale 1 output pixel [dst] reads source pixel [dst] with weight 1. *)
Lemma index_and_lambda_one (in_size dst : nat) :
  (dst < in_size)%nat ->
  exists i1, index_and_lambda (1 / 1)%Q in_size dst = (dst, i1, 0%Q).
Proof.
  intros Hd.
  assert (Hsrc : (source_index (1 / 1) dst == inject_Z (Z.of_nat dst))%Q).
  { unfold source_index.
    assert (E : ((1 / 1) * (inject_Z (Z.of_nat dst) + (1 # 2)) - (1 # 2)
                 == inject_Z (Z.of_nat dst))%Q) by field.
    destruct (Qle_bool 0 _) eqn:Hb; [exact E|].
    exfalso. assert (Hle : Qle_bool 0 (inject_Z (Z.of_nat dst)) = true).
    { apply Qle_bool_iff. change 0%Q with (inject_Z 0). rewrite <- Zle_Qle. lia. }
    rewrite <- E in Hle. congruence. }
  unfold index_and_lambda.
  rewrite (Qfloor_comp _ _ Hsrc), Qfloor_Z.
  rewrite Z.min_l by lia.
  assert (Hd0 : Qle_bool (source_index (1 / 1) dst - inject_Z (Z.of_nat dst)) 0 = true).
  { apply Qle_bool_iff. rewrite Hsrc. setoid_replace (inject_Z (Z.of_nat dst) - inject_Z (Z.of_nat dst))%Q with 0%Q by ring. apply Qle_refl. }
  rewrite Hd0. rewrite Nat2Z.id. eexists. reflexivity.
Qed.

Lemma Q2R_zero : Q2R 0 = 0.
Proof. unfold Q2R. simpl. lra. Qed.

Lemma bilinear_entry_one (t : Tensor) (n c y x : nat) :
  (y < dimH t)%nat -> (x < dimW t)%nat ->
  bilinear_entry t (1 / 1)%Q (1 / 1)%Q n c y x = entry t n c y x.
Proof.
  intros Hy Hx. unfold bilinear_entry.
  destruct (index_and_lambda_one (dimH t) y Hy) as [y1 ->].
  destruct (index_and_lambda_one (dimW t) x Hx) as [x1 ->].
  rewrite Q2R_zero. ring.
Qed.

(** Doubling a row of two pixels: the four output pixels read the source
    pixels (0,1) with weights 0, 1/4, 3/4 and (1,1) with weight 1/4, which
    turns the row [1, 2] into [1, 1.25, 1.75, 2]. *)
Example upsample_row_by_two :
  map (index_and_lambda (compute_scale 2 2 4) 2) [0; 1; 2; 3]%nat
  = [(0, 1, 0 # 1); (0, 1, 2 # 8); (0, 1, 6 # 8); (1, 1, 2 # 8)]%nat%Q.
Proof. vm_compute. reflexivity. Qed.

(** Halving a row of four pixels: each output pixel is the mean of two
    neighbours. *)
Example downsample_row_by_two :
  map (index_and_lambda (compute_scale (1 # 2) 4 2) 4) [0; 1]%nat
  = [(0, 1, 2 # 4); (2, 3, 2 # 4)]%nat%Q.
Proof. vm_compute. reflexivity. Qed.

(** The sizes of the coarsest scale of a 480x640 ground truth. *)
Example output_size_480_640 :
  output_size 480 (fdiv (inject_Z 60) (inject_Z 480)) = 60%Z
  /\ output_size 640 (fdiv (inject_Z 60) (inject_Z 480)) = 80%Z.
Proof. split; vm_compute; reflexivity. Qed.

(** Sizes at scale factor 1.0. *)
Lemma output_size_one (n : nat) :
  (Z.of_nat n < 2 ^ 53)%Z -> output_size n 1 = Z.of_nat n.
Proof.
  intros Hn. unfold output_size.
  assert (Hr : (round64 (inject_Z (Z.of_nat n)) == inject_Z (Z.of_nat n))%Q)
    by (apply round64_Z; lia).
  unfold fmul. rewrite (round64_comp _ (inject_Z (Z.of_nat n))) by (rewrite Hr; ring).
  rewrite (trunc_comp _ _ Hr). apply trunc_Z.
Qed.

(** Sizes when the ground truth is [2^k] times the prediction. *)
Lemma output_size_pow2 (w : nat) (k : Z) (sf : Q) :
  (0 <= k)%Z -> (Z.of_nat w * 2 ^ k < 2 ^ 53)%Z -> (sf == pow2 (- k))%Q ->
  output_size (w * Z.to_nat (2 ^ k)) sf = Z.of_nat w.
Proof.
  intros Hk Hb Hsf. unfold output_size.
  assert (Hp : (0 < 2 ^ k)%Z) by (apply Z.pow_pos_nonneg; lia).
  assert (E : Z.of_nat (w * Z.to_nat (2 ^ k)) = (Z.of_nat w * 2 ^ k)%Z)
    by (rewrite Nat2Z.inj_mul, Z2Nat.id by lia; reflexivity).
  rewrite E.
  assert (Hr : (round64 (inject_Z (Z.of_nat w * 2 ^ k)) == inject_Z (Z.of_nat w * 2 ^ k))%Q)
    by (apply round64_Z; lia).
  unfold fmul.
  rewrite (round64_comp _ (inject_Z (Z.of_nat w * 2 ^ k) * sf)%Q) by (rewrite Hr; reflexivity).
  apply (trunc_fmul_pow2 (Z.of_nat w) k sf); try assumption; lia.
Qed.

End TorchFacts.

(* ================================================================== *)
(** * The multi-scale loss *)
(* ================================================================== *)

Module LossFacts.
Import Float64 Float64Facts Torch TorchFacts.
Local Open Scope R_scope.

Lemma bidx_id (size i : nat) : (i < size)%nat -> bidx size i = i.
Proof. unfold bidx. intros H. destruct (Nat.eqb_spec size 1); lia. Qed.


Lemma resized_gt_eq (h : nat) (gt : Tensor) :
  (0 < dimH gt)%nat ->
  resized_gt h gt = interpolate gt (fdiv (inject_Z (Z.of_nat h)) (inject_Z (Z.of_nat (dimH gt)))).
Proof.
  intros H. unfold resized_gt, py_truediv.
  destruct (Z.eqb_spec (Z.of_nat (dimH gt)) 0); [lia | reflexivity].
Qed.

Lemma compute_scale_pos (sf : Q) (a b : nat) : (0 < sf)%Q -> compute_scale sf a b = (1 / sf)%Q.
Proof.
  intros H. unfold compute_scale. destruct (Qle_bool sf 0) eqn:E; [| reflexivity].
  apply Qle_bool_iff in E. exfalso. apply (Qlt_irrefl 0). eapply Qlt_le_trans; eassumption.
Qed.

(** The endpoint error depends on the entries inside the prediction's shape only. *)
Lemma endpoint_error_ext (p g g' : Tensor) :
  (forall n c y x, (n < dimN p)%nat -> (c < dimC p)%nat -> (y < dimH p)%nat -> (x < dimW p)%nat ->
      entry g n c y x = entry g' n c y x) ->
  Spec.endpoint_error p g = Spec.endpoint_error p g'.
Proof.
  intros H. unfold Spec.endpoint_error. f_equal.
  apply sum_upto_ext; intros n Hn. apply sum_upto_ext; intros y Hy.
  apply sum_upto_ext; intros x Hx. unfold Spec.pixel_error. f_equal.
  apply sum_upto_ext; intros c Hc. rewrite H by assumption. reflexivity.
Qed.

(** Subtracting a tensor of the same shape and averaging the norms is the
    endpoint error. *)
Lemma mean_norm_sub (p g d : Tensor) :
  dimN g = dimN p -> dimC g = dimC p -> dimH g = dimH p -> dimW g = dimW p ->
  (0 < dimN p)%nat -> (0 < dimH p)%nat -> (0 < dimW p)%nat ->
  sub p g = Ok d ->
  mean (norm_dim1 d) = Real (Spec.endpoint_error p g).
Proof.
  intros En Ec Eh Ew Hn Hh Hw. unfold sub. rewrite En, Ec, Eh, Ew, !broadcast_dim_same.
  intros E. injection E as <-. unfold mean, numel3, norm_dim1. cbn [dim0 dim1 dim2 dimN dimC dimH dimW].
  destruct (Nat.eqb_spec (dimN p * dimH p * dimW p) 0) as [Hz | _]; [nia|].
  f_equal. unfold Spec.endpoint_error, sum3. cbn [dim0 dim1 dim2 entry3 entry dimC]. f_equal.
  apply sum_upto_ext; intros n Hn'. apply sum_upto_ext; intros y Hy.
  apply sum_upto_ext; intros x Hx. unfold Spec.pixel_error. f_equal.
  apply sum_upto_ext; intros c Hc. rewrite !bidx_id by lia. reflexivity.
Qed.

(** One scale of consistent shape: the code computes the specification's
    endpoint error. *)
Lemma scale_epe_consistent (pred gt : Tensor) :
  Spec.shapes_consistent pred gt ->
  scale_epe pred gt = Ok (Real (Spec.scale_error pred gt)).
Proof.
  intros (En & Ec & Hn & Hc & Hh & Hw & Hgh & Hgw & Eoh & Eow).
  unfold scale_epe. rewrite resized_gt_eq by assumption.
  fold (Spec.scale_factor pred gt) in *.
  assert (Hsf : (0 < Spec.scale_factor pred gt)%Q) by (apply fdiv_pos; lia).
  destruct (interpolate_total gt (Spec.scale_factor pred gt)) as [t' Ht']; try lia.
  rewrite Ht'. cbn [bind].
  apply interpolate_ok in Ht'. destruct Ht' as (_ & _ & _ & _ & _ & ->).
  rewrite Eoh, Eow, !Nat2Z.id, !compute_scale_pos by assumption.
  match goal with |- context [sub pred ?g] => set (scaled := g) end.
  destruct (sub pred scaled) as [d | e] eqn:Hd.
  - cbn [bind]. f_equal.
    apply (mean_norm_sub pred scaled d); subst scaled; cbn; auto.
  - exfalso. unfold sub in Hd. subst scaled. cbn [dimN dimC dimH dimW] in Hd.
    rewrite <- En, <- Ec, !broadcast_dim_same in Hd. discriminate.
Qed.

(** ** The loop as a fold over the per-scale errors *)

Lemma scalar_add_0_r (a : scalar) : scalar_add a (Real 0) = a.
Proof. destruct a; simpl; [f_equal; lra | reflexivity]. Qed.

Lemma scalar_add_0_l (a : scalar) : scalar_add (Real 0) a = a.
Proof. destruct a; simpl; [f_equal; lra | reflexivity]. Qed.

Lemma scalar_add_assoc (a b c : scalar) :
  scalar_add (scalar_add a b) c = scalar_add a (scalar_add b c).
Proof. destruct a, b, c; simpl; try reflexivity. f_equal. lra. Qed.

Lemma epe_loop_app (a b : FlowDict) (gt : Tensor) (t : pyval) :
  epe_loop (a ++ b) gt t = bind (epe_loop a gt t) (fun t' => epe_loop b gt t').
Proof.
  revert t. induction a as [| [k p] a IH]; intros t; simpl; [reflexivity|].
  destruct (scale_epe p gt) as [e | e]; simpl; [apply IH | reflexivity].
Qed.

Lemma epe_loop_fold (items : FlowDict) (gt : Tensor) (t : pyval) :
  epe_loop items gt t =
  bind (Spec.scale_errors items gt) (fun es => Ok (fold_left iadd_tensor es t)).
Proof.
  revert t. induction items as [| [k p] items IH]; intros t; cbn [epe_loop Spec.scale_errors bind];
    [reflexivity|].
  destruct (scale_epe p gt) as [e | e]; cbn [bind]; [| reflexivity].
  rewrite IH. destruct (Spec.scale_errors items gt); reflexivity.
Qed.

Lemma fold_left_iadd (es : list scalar) (t : pyval) :
  fold_left iadd_tensor es t =
  match es with
  | [] => t
  | _ :: _ => Tensor0 (scalar_add (pyval_scalar t) (Spec.scalar_sum es))
  end.
Proof.
  revert t. induction es as [| e es IH]; intros t; [reflexivity|].
  cbn [fold_left]. rewrite IH.
  assert (Hcons : forall l, Spec.scalar_sum (e :: l) = scalar_add e (Spec.scalar_sum l))
    by reflexivity.
  rewrite Hcons. unfold iadd_tensor. cbn [pyval_scalar].
  destruct es as [| e' es].
  - unfold Spec.scalar_sum. cbn [fold_right]. rewrite scalar_add_0_r. reflexivity.
  - rewrite scalar_add_assoc. reflexivity.
Qed.

Lemma scale_errors_app (a b : FlowDict) (gt : Tensor) :
  Spec.scale_errors (a ++ b) gt =
  bind (Spec.scale_errors a gt) (fun x =>
  bind (Spec.scale_errors b gt) (fun y => Ok (x ++ y))).
Proof.
  induction a as [| [k p] a IH]; cbn [app Spec.scale_errors bind].
  - destruct (Spec.scale_errors b gt); reflexivity.
  - destruct (scale_epe p gt) as [e | e]; cbn [bind]; [| reflexivity].
    rewrite IH. destruct (Spec.scale_errors a gt); cbn [bind]; [| reflexivity].
    destruct (Spec.scale_errors b gt); reflexivity.
Qed.



(** ** Non-negativity *)






(** ** The loss of non-empty tensors is a number *)






(** ** The union of two mappings with disjoint keys *)



End LossFacts.

(* ================================================================== *)
(** * Properties of the loss *)
(* ================================================================== *)

Module LossClaims.
Import Float64 Float64Facts Torch TorchFacts LossFacts Inputs.
Local Open Scope R_scope.

Lemma scale_errors_consistent (preds : FlowDict) (gt : Tensor) :
  Forall (fun kp => Spec.shapes_consistent (snd kp) gt) preds ->
  Spec.scale_errors preds gt = Ok (map (fun kp => Real (Spec.scale_error (snd kp) gt)) preds).
Proof.
  induction 1 as [| [k p] preds Hp _ IH]; cbn [Spec.scale_errors map]; [reflexivity|].
  cbn [snd] in *. rewrite (scale_epe_consistent p gt Hp), IH. reflexivity.
Qed.

Lemma scalar_sum_real (preds : FlowDict) (gt : Tensor) :
  Spec.scalar_sum (map (fun kp => Real (Spec.scale_error (snd kp) gt)) preds)
  = Real (Spec.total_loss preds gt).
Proof.
  unfold Spec.scalar_sum.
  induction preds as [| [k p] preds IH]; cbn [map fold_right Spec.total_loss snd]; [reflexivity|].
  rewrite IH. reflexivity.
Qed.


(** The shapes are consistent whenever the ground truth is [2^k] times
    the prediction in height and in width: the quotient [2^-k] is a binary64
    number and the products are exact. *)
Lemma pyramid_consistent (pred gt : Tensor) (k : Z) :
  (0 <= k)%Z ->
  dimN pred = dimN gt -> dimC pred = dimC gt ->
  (0 < dimN pred)%nat -> (0 < dimC pred)%nat -> (0 < dimH pred)%nat -> (0 < dimW pred)%nat ->
  dimH gt = (dimH pred * Z.to_nat (2 ^ k))%nat ->
  dimW gt = (dimW pred * Z.to_nat (2 ^ k))%nat ->
  (Z.of_nat (dimH gt) < 2 ^ 53)%Z -> (Z.of_nat (dimW gt) < 2 ^ 53)%Z ->
  Spec.shapes_consistent pred gt.
Proof.
  intros Hk En Ec Hn Hc Hh Hw EH EW BH BW.
  assert (Hp : (0 < 2 ^ k)%Z) by (apply Z.pow_pos_nonneg; lia).
  assert (Hpn : (0 < Z.to_nat (2 ^ k))%nat) by lia.
  assert (ZH : Z.of_nat (dimH gt) = (Z.of_nat (dimH pred) * 2 ^ k)%Z)
    by (rewrite EH, Nat2Z.inj_mul, Z2Nat.id by lia; reflexivity).
  assert (ZW : Z.of_nat (dimW gt) = (Z.of_nat (dimW pred) * 2 ^ k)%Z)
    by (rewrite EW, Nat2Z.inj_mul, Z2Nat.id by lia; reflexivity).
  assert (Hsf : (Spec.scale_factor pred gt == pow2 (- k))%Q).
  { unfold Spec.scale_factor. rewrite ZH. apply fdiv_pow2; lia. }
  unfold Spec.shapes_consistent.
  repeat (split; [first [assumption | nia]|]).
  split.
  - rewrite EH. apply output_size_pow2; try assumption. lia.
  - rewrite EW. apply output_size_pow2; try assumption. lia.
Qed.


Lemma output_size_4_one : output_size 4 (fdiv (inject_Z 4) (inject_Z 4)) = 4%Z.
Proof. vm_compute. reflexivity. Qed.


Lemma pred4_consistent : Spec.shapes_consistent pred4 gt4.
Proof.
  unfold Spec.shapes_consistent, Spec.scale_factor. cbn [pred4 gt4 const_tensor dimN dimC dimH dimW].
  change (Z.of_nat 4) with 4%Z.
  rewrite output_size_4_one. repeat split; lia.
Defined.






Lemma output_size_22 : output_size 22 (fdiv (inject_Z 15) (inject_Z 22)) = 14%Z.
Proof. vm_compute. reflexivity. Qed.

(** C4.  A 22x22 ground truth and a 15x15 prediction scale by the same
    factor in height and width, yet the ground truth is resized to 14x14:
    the double product [22 * (15 / 22)] is 14.999999999999998 and truncates
    to 14 (the primitive binary64 numbers give the same product).  The
    subtraction then raises a shape-mismatch error. *)
Theorem C4_resized_size_is_14_for_15_of_22 :
  Spec.same_ratio pred15 gt22
  /\ option_map trunc (snd (prim_resize 15 22)) = Some 14%Z
  /\ (exists scaled, resized_gt (dimH pred15) gt22 = Ok scaled
                     /\ dimH scaled = 14%nat /\ dimW scaled = 14%nat)
  /\ compute_multiscale_epe_error [("flow0"%string, pred15)] gt22 = Raise RuntimeError.
Proof.
  assert (Hr : resized_gt (dimH pred15) gt22 =
               Ok {| dimN := 1; dimC := 2; dimH := 14; dimW := 14;
                     entry := bilinear_entry gt22
                                (compute_scale (fdiv (inject_Z 15) (inject_Z 22)) 22 14)
                                (compute_scale (fdiv (inject_Z 15) (inject_Z 22)) 22 14) |}).
  { rewrite resized_gt_eq by (cbn; lia). unfold interpolate.
    cbn [pred15 gt22 const_tensor dimN dimC dimH dimW].
    change (Z.of_nat 15) with 15%Z. change (Z.of_nat 22) with 22%Z.
    rewrite output_size_22. reflexivity. }
  split; [reflexivity|]. split; [vm_compute; reflexivity|]. split.
  - eexists. split; [exact Hr|]. split; reflexivity.
  - unfold compute_multiscale_epe_error. cbn [epe_loop]. unfold scale_epe.
    rewrite Hr. reflexivity.
Qed.

(** C5.  A single scale at the resolution of the ground truth: the scale
    factor is 1.0, the resize returns the ground truth unchanged, and the
    loss is the plain mean Euclidean endpoint error between the prediction
    and the ground truth. *)
Theorem C5_single_full_resolution_scale (s : string) (pred gt : Tensor) :
  dimN pred = dimN gt -> dimC pred = dimC gt ->
  dimH pred = dimH gt -> dimW pred = dimW gt ->
  (0 < dimN gt)%nat -> (0 < dimC gt)%nat -> (0 < dimH gt)%nat -> (0 < dimW gt)%nat ->
  (Z.of_nat (dimH gt) < 2 ^ 53)%Z -> (Z.of_nat (dimW gt) < 2 ^ 53)%Z ->
  compute_multiscale_epe_error [(s, pred)] gt = Ok (Tensor0 (Real (Spec.endpoint_error pred gt)))
  /\ exists scaled,
       resized_gt (dimH pred) gt = Ok scaled
       /\ dimN scaled = dimN gt /\ dimC scaled = dimC gt
       /\ dimH scaled = dimH gt /\ dimW scaled = dimW gt
       /\ forall n c y x, (y < dimH gt)%nat -> (x < dimW gt)%nat ->
            entry scaled n c y x = entry gt n c y x.
Proof.
  intros En Ec Eh Ew Hn Hc Hh Hw Bh Bw.
  assert (Hsf : Spec.scale_factor pred gt = 1%Q).
  { unfold Spec.scale_factor. rewrite Eh. apply fdiv_same. lia. }
  assert (Hcons : Spec.shapes_consistent pred gt).
  { unfold Spec.shapes_consistent. rewrite Hsf, !output_size_one by assumption.
    rewrite En, Ec, Eh, Ew. repeat split; assumption. }
  split.
  - unfold compute_multiscale_epe_error. cbn [epe_loop].
    rewrite (scale_epe_consistent pred gt Hcons). cbn [bind epe_loop].
    unfold iadd_tensor. cbn [pyval_scalar scalar_add]. do 3 f_equal.
    rewrite Rplus_0_l. unfold Spec.scale_error. apply endpoint_error_ext.
    intros n c y x _ _ Hy Hx. unfold Spec.scaled_gt. rewrite Hsf. cbn [entry].
    apply bilinear_entry_one; lia.
  - rewrite resized_gt_eq by assumption. fold (Spec.scale_factor pred gt). rewrite Hsf.
    destruct (interpolate_total gt 1%Q) as [t' Ht']; try assumption;
      try (rewrite output_size_one by assumption; lia).
    exists t'. split; [exact Ht'|].
    apply interpolate_ok in Ht'. destruct Ht' as (_ & _ & _ & _ & _ & ->).
    rewrite !output_size_one, !Nat2Z.id by assumption. cbn [dimN dimC dimH dimW entry].
    repeat split; try reflexivity.
    intros n c y x Hy Hx. rewrite !compute_scale_pos by reflexivity.
    apply bilinear_entry_one; assumption.
Qed.

(** C5 on a 4x4 prediction and ground truth. *)
Lemma C5_witness :
  compute_multiscale_epe_error [("flow3"%string, pred4)] gt4
  = Ok (Tensor0 (Real (Spec.endpoint_error pred4 gt4)))
  /\ exists scaled,
       resized_gt (dimH pred4) gt4 = Ok scaled
       /\ dimN scaled = dimN gt4 /\ dimC scaled = dimC gt4
       /\ dimH scaled = dimH gt4 /\ dimW scaled = dimW gt4
       /\ forall n c y x, (y < dimH gt4)%nat -> (x < dimW gt4)%nat ->
            entry scaled n c y x = entry gt4 n c y x.
Proof.
  apply C5_single_full_resolution_scale; cbn; try reflexivity; lia.
Defined.

(** C9.  On the empty mapping the loop body never runs: the function
    returns the Python float [0.0] it started with, which has neither
    [.backward()] nor [.item()]. *)
Theorem C9_empty_mapping_returns_plain_float (gt : Tensor) :
  compute_multiscale_epe_error [] gt = Ok (PyFloat (Real 0))
  /\ bind (compute_multiscale_epe_error [] gt) backward = Raise AttributeError
  /\ bind (compute_multiscale_epe_error [] gt) item = Raise AttributeError.
Proof. repeat split. Qed.










End LossClaims.

(* ================================================================== *)
(** * The driver *)
(* ================================================================== *)

Module DriverFacts.
Import Torch Driver.

(** ** Batching *)

Section Batching.
Context {A : Type}.

Lemma batch_sampler_lengths (B : nat) (l cur : list A) :
  list_sum (map (@List.length A) (batch_sampler B l cur)) = (List.length cur + List.length l)%nat.
Proof.
  revert cur. induction l as [| x l IH]; intros cur; cbn [batch_sampler].
  - destruct cur; cbn [map list_sum fold_right List.length].
    + reflexivity.
    + rewrite length_rev. cbn [List.length]. lia.
  - destruct (Nat.eqb_spec (List.length (x :: cur)) B).
    + cbn [map list_sum fold_right]. rewrite IH, length_rev. cbn [List.length]. lia.
    + rewrite IH. cbn [List.length]. lia.
Qed.

(** The number of batches is the quotient rounded up. *)
Lemma batch_sampler_count (B : nat) (l cur : list A) :
  (0 < B)%nat -> (List.length cur < B)%nat ->
  List.length (batch_sampler B l cur) = ((List.length cur + List.length l + B - 1) / B)%nat.
Proof.
  intros HB. revert cur. induction l as [| x l IH]; intros cur Hcur; cbn [batch_sampler].
  - destruct cur as [| c cur]; cbn [List.length] in *.
    + symmetry. apply Nat.div_small. lia.
    + apply (Nat.div_unique _ B 1 (List.length cur)); lia.
  - destruct (Nat.eqb_spec (List.length (x :: cur)) B) as [E | NE].
    + cbn [List.length] in *. rewrite (IH []) by (cbn; lia). cbn [List.length].
      replace (List.length cur + S (List.length l) + B - 1)%nat
        with (1 * B + (0 + List.length l + B - 1))%nat by lia.
      rewrite Nat.div_add_l by lia. lia.
    + cbn [List.length] in *. rewrite IH by (cbn [List.length]; lia).
      cbn [List.length]. f_equal. lia.
Qed.

(** When the batch size divides the number of items every batch is full. *)
Lemma batch_sampler_full (B : nat) (l cur : list A) :
  (0 < B)%nat -> (List.length cur < B)%nat ->
  ((List.length cur + List.length l) mod B = 0)%nat ->
  Forall (fun b => List.length b = B) (batch_sampler B l cur).
Proof.
  intros HB. revert cur. induction l as [| x l IH]; intros cur Hcur Hmod; cbn [batch_sampler].
  - destruct cur as [| c cur]; [constructor|].
    exfalso. cbn [List.length] in *. rewrite Nat.add_0_r in Hmod.
    rewrite Nat.mod_small in Hmod by lia. lia.
  - destruct (Nat.eqb_spec (List.length (x :: cur)) B) as [E | NE].
    + constructor; [rewrite length_rev; exact E|].
      apply IH; [cbn; lia|]. cbn [List.length] in *.
      replace (List.length cur + S (List.length l))%nat
        with (List.length l + 1 * B)%nat in Hmod by lia.
      rewrite Nat.Div0.mod_add in Hmod. exact Hmod.
    + apply IH; cbn [List.length] in *; [lia|].
      replace (S (List.length cur) + List.length l)%nat
        with (List.length cur + S (List.length l))%nat by lia. exact Hmod.
Qed.

Lemma list_sum_full (B : nat) (bs : list (list A)) :
  Forall (fun b => List.length b = B) bs ->
  list_sum (map (@List.length A) bs) = (List.length bs * B)%nat.
Proof.
  induction 1 as [| b bs Hb _ IH]; [reflexivity|].
  cbn [map List.length]. change (list_sum (List.length b :: map (@List.length A) bs))
    with (List.length b + list_sum (map (@List.length A) bs))%nat.
  rewrite IH, Hb. lia.
Qed.

End Batching.

(** Rounding the quotient up and multiplying back gives the number of
    items when the batch size divides it and more otherwise. *)
Lemma ceil_times (n B : nat) :
  (0 < B)%nat ->
  (n mod B = 0 -> (n + B - 1) / B * B = n)%nat
  /\ (n mod B <> 0 -> n < (n + B - 1) / B * B)%nat.
Proof.
  intros HB.
  pose proof (Nat.div_mod_eq n B) as Hn. pose proof (Nat.mod_upper_bound n B ltac:(lia)) as Hr.
  set (q := (n / B)%nat) in *. set (r := (n mod B)%nat) in *.
  split; intros Hz.
  - replace (n + B - 1)%nat with (q * B + (B - 1))%nat by lia.
    rewrite Nat.div_add_l by lia. rewrite (Nat.div_small (B - 1) B) by lia. lia.
  - replace (n + B - 1)%nat with ((q + 1) * B + (r - 1))%nat by lia.
    rewrite Nat.div_add_l by lia. rewrite (Nat.div_small (r - 1) B) by lia. lia.
Qed.


Section WithCollaborators.
Context {X : Collaborators}.

Local Open Scope R_scope.

(** ** Loaders *)

Lemma loader_order_length (seed : Z) (k : nat) (dl : DataLoader) :
  shuffle_keeps_length ->
  List.length (if shuffle dl then shuffled seed k (dataset dl) else dataset dl)
  = List.length (dataset dl).
Proof. intros Hs. destruct (shuffle dl); [apply Hs | reflexivity]. Qed.

(** The batches of a pass hold every sample once. *)
Lemma loader_rows (seed : Z) (k : nat) (dl : DataLoader) :
  collate_stacks -> shuffle_keeps_length ->
  list_sum (map (fun b => dimN (event_volume b)) (loader_batches seed k dl))
  = List.length (dataset dl).
Proof.
  intros Hc Hs. unfold loader_batches. rewrite map_map.
  rewrite (map_ext _ (@List.length Sample)) by (intros l; apply Hc).
  rewrite batch_sampler_lengths. cbn [List.length]. apply loader_order_length. exact Hs.
Qed.

(** [len(loader)] is the number of batches of a pass. *)
Lemma loader_count (seed : Z) (k : nat) (dl : DataLoader) :
  (0 < batch_size dl)%nat -> shuffle_keeps_length ->
  List.length (loader_batches seed k dl) = loader_len dl.
Proof.
  intros HB Hs. unfold loader_batches, loader_len. rewrite length_map.
  rewrite batch_sampler_count by (cbn; lia). cbn [List.length].
  rewrite loader_order_length by exact Hs. reflexivity.
Qed.

(** ** The evaluation loop *)

Lemma torch_cat_ok (c h w : nat) (flow : Accum) (t : Tensor) :
  accum_shape c h w flow -> dimC t = c -> dimH t = h -> dimW t = w ->
  exists flow', torch_cat flow t = Ok flow'
                /\ accum_shape c h w flow'
                /\ leading_dim flow' = (leading_dim flow + dimN t)%nat.
Proof.
  intros Hs Hc Hh Hw. destruct flow as [| a]; cbn [torch_cat].
  - eexists. split; [reflexivity|]. cbn. auto.
  - destruct Hs as (Ha1 & Ha2 & Ha3).
    rewrite Ha1, Ha2, Ha3, Hc, Hh, Hw, !Nat.eqb_refl. cbn [andb].
    eexists. split; [reflexivity|]. cbn. auto.
Qed.

Lemma eval_batches_ok (c h w : nat) (batches : list Batch) :
  model_gives_flow3 c h w ->
  forall (st : State) (flow : Accum),
  accum_shape c h w flow ->
  exists st' flow',
    eval_batches batches st flow = Ok (st', flow')
    /\ accum_shape c h w flow'
    /\ leading_dim flow'
       = (leading_dim flow + list_sum (map (fun b => dimN (event_volume b)) batches))%nat
    /\ log st' = (log st ++ repeat (ForwardPass (training st)) (List.length batches))%list
    /\ fs st' = fs st /\ params st' = params st
    /\ lr st' = lr st /\ last_epoch st' = last_epoch st.
Proof.
  intros Hm. induction batches as [| b batches IH]; intros st flow Hs; cbn [eval_batches].
  - exists st, flow. cbn. rewrite Nat.add_0_r, app_nil_r. repeat split; auto.
  - destruct (Hm (training st) (params st) (event_volume b)) as (t & Hget & HN & HC & HH & HW).
    rewrite Hget. cbn [bind].
    destruct (torch_cat_ok c h w flow t Hs HC HH HW) as (flow1 & Hcat & Hs1 & Hl1).
    rewrite Hcat. cbn [bind].
    destruct (IH (emit (ForwardPass (training st)) st) flow1 Hs1)
      as (st' & flow' & He & Hs' & Hl & Hlog & Hfs & Hp & Hlr & Hle).
    exists st', flow'. rewrite He. repeat split; try assumption.
    + rewrite Hl, Hl1, HN. cbn [map]. unfold list_sum. cbn [fold_right]. lia.
    + rewrite Hlog. cbn [emit log training repeat List.length].
      rewrite <- app_assoc. reflexivity.
Qed.

(** ** One training batch *)




(** ** One epoch and the loop over epochs *)





(** ** The checkpoint and the export *)


Lemma evaluate_ok (args : Config) (env : Environment) (test_data : DataLoader) (st : State)
  (c h w : nat) (p : Params) :
  model_gives_flow3 c h w ->
  load_state_dict (fs st) (model_path env) = Ok p ->
  is_dir (fs st) "submission.npy" = false ->
  exists st' flow,
    evaluate args env test_data st = Ok (st', flow)
    /\ read_file (files (fs st')) "submission.npy" = Some (NpyArray flow)
    /\ read_file (files (fs st')) (model_path env) = read_file (files (fs st)) (model_path env)
    /\ leading_dim flow
       = list_sum (map (fun b => dimN (event_volume b))
                     (loader_batches (seed args) (passes st) test_data))
    /\ filter is_training_event (log st') = filter is_training_event (log st)
    /\ params st' = p /\ lr st' = lr st /\ last_epoch st' = last_epoch st.
Proof.
  intros Hm Hload Hdir. unfold evaluate. rewrite Hload. cbn [bind].
  match goal with
  | |- context [eval_batches ?bs ?s Empty1D] =>
      destruct (eval_batches_ok c h w bs Hm s Empty1D I)
        as (st1 & flow & E & _ & Hl & Hlog & Hfs & Hp & Hlr & Hle)
  end.
  cbn [emit set_training set_params passes] in E |- *. rewrite E. cbn [bind fst snd].
  unfold write_file. cbn [emit fs]. rewrite Hfs. cbn [emit set_training set_params fs].
  rewrite Hdir. cbn [andb negb bind].
  eexists. exists flow. split; [reflexivity|].
  cbn [set_fs emit fs files read_file params log lr last_epoch].
  rewrite Hlog, Hp, Hlr, Hle, Hl.
  cbn [emit set_training set_params log training params lr last_epoch leading_dim].
  rewrite !filter_app.
  assert (Hrep : forall n, filter is_training_event (repeat (ForwardPass false) n) = []).
  { induction n; [reflexivity | exact IHn]. }
  rewrite Hrep. cbn [filter is_training_event]. rewrite !app_nil_r.
  repeat split.
Qed.

End WithCollaborators.

End DriverFacts.

(* ================================================================== *)
(** * Properties of the driver *)
(* ================================================================== *)

Module DriverClaims.
Import Float64 Float64Facts Torch TorchFacts LossFacts Inputs Driver DriverFacts Toy.
Local Open Scope R_scope.

(** ** The small instance meets the contracts *)

Lemma toy_collate_stacks : collate_stacks (X := toy).
Proof. intros l. reflexivity. Qed.

Lemma toy_gives_flow3 : model_gives_flow3 (X := toy) 2 1 1.
Proof. intros mode p x. eexists. repeat split; reflexivity. Qed.

Lemma toy_shuffle_keeps_length : shuffle_keeps_length (X := toy).
Proof. intros s k l. apply length_rev. Qed.


(** ** Evaluation *)

(** C3, the counterexample.  Five test samples in batches of two: the
    loader yields three batches, of sizes 2, 2 and 1, and the exported array
    has 5 rows, not 3 x 2. *)
Lemma C3_counterexample :
  exported_rows (main (X := toy) (toy_args 0) toy_env) = Some 5%nat
  /\ List.length (loader_batches (X := toy) 0 0 toy_test_data) = 3%nat
  /\ batch_size toy_test_data = 2%nat
  /\ 5%nat <> (3 * 2)%nat.
Proof.
  split; [vm_compute; reflexivity|]. split; [vm_compute; reflexivity|].
  split; [reflexivity | lia].
Qed.

(** C3, as the code has it.  Every batch of the test loader is kept
    ([drop_last=False]) and its finest-scale prediction is appended along
    the first dimension, so the exported array has one row per test sample.
    That is the number of batches times the batch size when the batch size
    divides the number of samples, and less otherwise. *)
Theorem C3_export_has_one_row_per_sample {X : Collaborators}
  (args : Config) (env : Environment) (test_data : DataLoader) (st : State)
  (c h w : nat) (p : Params) :
  (0 < batch_size test_data)%nat ->
  collate_stacks -> model_gives_flow3 c h w -> shuffle_keeps_length ->
  load_state_dict (fs st) (model_path env) = Ok p ->
  is_dir (fs st) "submission.npy" = false ->
  exists st' flow,
    evaluate args env test_data st = Ok (st', flow)
    /\ read_file (files (fs st')) "submission.npy" = Some (NpyArray flow)
    /\ leading_dim flow = List.length (dataset test_data)
    /\ (let n_batches := List.length (loader_batches (seed args) (passes st) test_data) in
        let n_samples := List.length (dataset test_data) in
        (n_samples mod batch_size test_data = 0
           -> leading_dim flow = n_batches * batch_size test_data)
        /\ (n_samples mod batch_size test_data <> 0
           -> leading_dim flow < n_batches * batch_size test_data))%nat.
Proof.
  intros HB Hc Hm Hs Hload Hdir.
  destruct (evaluate_ok args env test_data st c h w p Hm Hload Hdir)
    as (st' & flow & E & Hfile & _ & Hl & _).
  exists st', flow. rewrite (loader_rows _ _ _ Hc Hs) in Hl.
  repeat (split; [assumption|]).
  cbv zeta. rewrite (loader_count _ _ _ HB Hs), Hl. unfold loader_len.
  destruct (ceil_times (List.length (dataset test_data)) (batch_size test_data) HB)
    as [H1 H2].
  split; [intros Hz; symmetry; apply H1; exact Hz | exact H2].
Qed.

(** C3 on the small instance: five samples, batches of two. *)
Lemma C3_witness :
  exists st' flow,
    evaluate (X := toy) (toy_args 0) toy_env toy_test_data toy_saved = Ok (st', flow)
    /\ read_file (files (fs st')) "submission.npy" = Some (NpyArray flow)
    /\ leading_dim flow = List.length (dataset toy_test_data)
    /\ (let n_batches := List.length (loader_batches (seed (toy_args 0)) (passes toy_saved)
                                        toy_test_data) in
        let n_samples := List.length (dataset toy_test_data) in
        (n_samples mod batch_size toy_test_data = 0
           -> leading_dim flow = n_batches * batch_size toy_test_data)
        /\ (n_samples mod batch_size toy_test_data <> 0
           -> leading_dim flow < n_batches * batch_size toy_test_data))%nat.
Proof.
  apply (C3_export_has_one_row_per_sample (X := toy) (toy_args 0) toy_env toy_test_data
           toy_saved 2 1 1 tt).
  - cbn. lia.
  - exact toy_collate_stacks.
  - exact toy_gives_flow3.
  - exact toy_shuffle_keeps_length.
  - reflexivity.
  - reflexivity.
Defined.

(** ** Training *)





End DriverClaims.

(* ================================================================== *)
(** * Further properties of the loss *)
(* ================================================================== *)

Module LossMore.
Import Float64 Float64Facts Torch TorchFacts LossFacts Inputs More.
Local Open Scope R_scope.

Lemma scale_errors_length (preds : FlowDict) (gt : Tensor) (es : list scalar) :
  Spec.scale_errors preds gt = Ok es -> List.length es = List.length preds.
Proof.
  revert es. induction preds as [| [k p] preds IH]; intros es; cbn [Spec.scale_errors].
  - intros E. injection E as <-. reflexivity.
  - destruct (scale_epe p gt); cbn [bind]; [| discriminate].
    destruct (Spec.scale_errors preds gt) as [es' |]; cbn [bind]; [| discriminate].
    intros E. injection E as <-. cbn [List.length]. f_equal. apply IH. reflexivity.
Qed.

Lemma loss_consistent (preds : FlowDict) (gt : Tensor) :
  preds <> [] ->
  Forall (fun kp => Spec.shapes_consistent (snd kp) gt) preds ->
  compute_multiscale_epe_error preds gt = Ok (Tensor0 (Real (Spec.total_loss preds gt))).
Proof.
  intros Hne Hall. unfold compute_multiscale_epe_error.
  rewrite epe_loop_fold, (LossClaims.scale_errors_consistent preds gt Hall). cbn [bind].
  rewrite fold_left_iadd. destruct preds as [| kp preds]; [contradiction|].
  cbn [map]. do 2 f_equal.
  change (Real (Spec.scale_error (snd kp) gt)
            :: map (fun kp0 => Real (Spec.scale_error (snd kp0) gt)) preds)
    with (map (fun kp0 => Real (Spec.scale_error (snd kp0) gt)) (kp :: preds)).
  rewrite LossClaims.scalar_sum_real. cbn [pyval_scalar]. apply scalar_add_0_l.
Qed.

(** X1.  On a non-empty mapping a returned loss is a zero-dimensional tensor:
    [.item()] gives its value and [.backward()] is available. *)
Theorem loss_of_scales_is_tensor (preds : FlowDict) (gt : Tensor) (v : pyval) :
  preds <> [] ->
  compute_multiscale_epe_error preds gt = Ok v ->
  exists x, v = Tensor0 x /\ item v = Ok x /\ backward v = Ok tt.
Proof.
  intros Hne. unfold compute_multiscale_epe_error. rewrite epe_loop_fold.
  destruct (Spec.scale_errors preds gt) as [es |] eqn:E; cbn [bind]; [| discriminate].
  intros H. injection H as <-. rewrite fold_left_iadd.
  apply scale_errors_length in E.
  destruct es as [| e es]; [destruct preds; [contradiction | discriminate]|].
  eexists. repeat split.
Qed.

Lemma full_scale_consistent :
  Forall (fun kp => Spec.shapes_consistent (snd kp) gt4) [("flow3"%string, pred4)].
Proof. apply Forall_cons; [exact LossClaims.pred4_consistent | apply Forall_nil]. Qed.


Lemma loss_of_scales_is_tensor_example :
  exists x, Tensor0 (Real (Spec.total_loss [("flow3"%string, pred4)] gt4)) = Tensor0 x
            /\ item (Tensor0 (Real (Spec.total_loss [("flow3"%string, pred4)] gt4))) = Ok x
            /\ backward (Tensor0 (Real (Spec.total_loss [("flow3"%string, pred4)] gt4))) = Ok tt.
Proof.
  apply (loss_of_scales_is_tensor [("flow3"%string, pred4)] gt4).
  - discriminate.
  - unfold compute_multiscale_epe_error. rewrite epe_loop_fold.
    rewrite (LossClaims.scale_errors_consistent _ gt4 full_scale_consistent).
    cbn [bind map snd fold_left]. unfold iadd_tensor. cbn [pyval_scalar scalar_add Spec.total_loss].
    do 3 f_equal. ring.
Defined.

(** ** The loss depends on the predictions only, not on their names or order *)









(** ** Exceptions *)

Lemma scale_errors_defined (preds : FlowDict) (gt : Tensor) :
  (exists es, Spec.scale_errors preds gt = Ok es) <-> all_scales_defined preds gt.
Proof.
  unfold all_scales_defined.
  induction preds as [| [k p] preds IH]; cbn [Spec.scale_errors].
  - split; [intros _; constructor | intros _; eexists; reflexivity].
  - split.
    + intros [es E]. destruct (scale_epe p gt) as [e |] eqn:He; cbn [bind] in E; [| discriminate].
      destruct (Spec.scale_errors preds gt) as [es' |]; cbn [bind] in E; [| discriminate].
      constructor; [exists e; exact He | apply IH; eexists; reflexivity].
    + intros H. inversion H as [| ? ? [e He] Hrest]; subst. cbn [snd] in He.
      apply IH in Hrest. destruct Hrest as [es' ->]. rewrite He. cbn [bind].
      eexists. reflexivity.
Qed.

(** X3.  The loss returns exactly when every scale has an endpoint error.
    Otherwise it raises what the first failing scale raises: no partial sum
    is ever returned. *)
Theorem loss_returns_iff_every_scale_does (preds : FlowDict) (gt : Tensor) :
  ((exists v, compute_multiscale_epe_error preds gt = Ok v) <-> all_scales_defined preds gt)
  /\ forall a k p b e,
       preds = (a ++ (k, p) :: b)%list ->
       all_scales_defined a gt -> scale_epe p gt = Raise e ->
       compute_multiscale_epe_error preds gt = Raise e.
Proof.
  split.
  - rewrite <- scale_errors_defined. unfold compute_multiscale_epe_error.
    rewrite epe_loop_fold. split.
    + intros [v Hv]. destruct (Spec.scale_errors preds gt) as [es |]; [| discriminate].
      eexists. reflexivity.
    + intros [es ->]. cbn [bind]. eexists. reflexivity.
  - intros a k p b e -> Ha Hp. unfold compute_multiscale_epe_error.
    rewrite epe_loop_fold, scale_errors_app.
    apply scale_errors_defined in Ha. destruct Ha as [es ->].
    cbn [bind Spec.scale_errors]. rewrite Hp. reflexivity.
Qed.

(** X4.  A ground truth of height zero: the quotient of the heights is a
    division by zero, whatever the predictions are. *)
Theorem loss_of_empty_ground_truth (preds : FlowDict) (gt : Tensor) :
  preds <> [] -> dimH gt = 0%nat ->
  compute_multiscale_epe_error preds gt = Raise ZeroDivisionError.
Proof.
  intros Hne Hz. destruct preds as [| [k p] preds]; [contradiction|].
  unfold compute_multiscale_epe_error. cbn [epe_loop].
  unfold scale_epe, resized_gt, py_truediv. rewrite Hz. reflexivity.
Qed.

Lemma loss_of_empty_ground_truth_example :
  compute_multiscale_epe_error [("flow3"%string, pred4)] (const_tensor 1 2 0 4 0)
  = Raise ZeroDivisionError.
Proof.
  apply loss_of_empty_ground_truth; [discriminate | reflexivity].
Defined.

(** ** The loss is zero exactly on the resized ground truth *)

Lemma sum_upto_zero_iff (n : nat) (f : nat -> R) :
  (forall i, (i < n)%nat -> 0 <= f i) ->
  (sum_upto n f = 0 <-> forall i, (i < n)%nat -> f i = 0).
Proof.
  induction n as [| n IH]; intros Hpos; cbn [sum_upto].
  - split; [intros _ i Hi; lia | reflexivity].
  - assert (Hs : 0 <= sum_upto n f) by (apply sum_upto_nonneg; intros; apply Hpos; lia).
    assert (Hn : 0 <= f n) by (apply Hpos; lia).
    assert (IH' := IH (fun i Hi => Hpos i (Nat.lt_lt_succ_r _ _ Hi))).
    split.
    + intros E i Hi. destruct (Nat.eq_dec i n) as [-> | Hne]; [lra|].
      apply IH'; [lra | lia].
    + intros H. rewrite (proj2 IH') by (intros; apply H; lia). rewrite (H n) by lia. lra.
Qed.

Lemma pixel_error_zero_iff (p g : Tensor) (n y x : nat) :
  Spec.pixel_error p g n y x = 0
  <-> forall c, (c < dimC p)%nat -> entry p n c y x = entry g n c y x.
Proof.
  unfold Spec.pixel_error.
  assert (Hpos : forall c, (c < dimC p)%nat -> 0 <= Rsqr (entry p n c y x - entry g n c y x))
    by (intros; apply Rle_0_sqr).
  split.
  - intros E c Hc. apply sqrt_eq_0 in E; [| apply sum_upto_nonneg; exact Hpos].
    pose proof (proj1 (sum_upto_zero_iff _ _ Hpos) E c Hc) as E'. cbn beta in E'.
    apply Rsqr_0_uniq in E'. lra.
  - intros H. rewrite (proj2 (sum_upto_zero_iff _ _ Hpos)); [apply sqrt_0|].
    intros c Hc. rewrite (H c Hc). unfold Rsqr. ring.
Qed.

Lemma pixel_error_nonneg (p g : Tensor) (n y x : nat) : 0 <= Spec.pixel_error p g n y x.
Proof. apply sqrt_pos. Qed.

Lemma endpoint_error_nonneg (p g : Tensor) : 0 <= Spec.endpoint_error p g.
Proof.
  unfold Spec.endpoint_error. apply Rmult_le_pos.
  - repeat (apply sum_upto_nonneg; intros). apply pixel_error_nonneg.
  - destruct (Nat.eq_dec (dimN p * dimH p * dimW p) 0) as [-> | Hne].
    + cbn. rewrite Rinv_0. lra.
    + apply Rlt_le, Rinv_0_lt_compat, lt_0_INR. lia.
Qed.

Lemma endpoint_error_zero_iff (p g : Tensor) :
  (0 < dimN p)%nat -> (0 < dimH p)%nat -> (0 < dimW p)%nat ->
  (Spec.endpoint_error p g = 0
   <-> forall n c y x, (n < dimN p)%nat -> (c < dimC p)%nat -> (y < dimH p)%nat ->
                       (x < dimW p)%nat -> entry p n c y x = entry g n c y x).
Proof.
  intros Hn Hh Hw. unfold Spec.endpoint_error.
  assert (Hnum : 0 < INR (dimN p * dimH p * dimW p)) by (apply lt_0_INR; nia).
  set (S := sum_upto (dimN p) _).
  assert (HS : S / INR (dimN p * dimH p * dimW p) = 0 <-> S = 0).
  { split; intros E.
    - apply (Rmult_eq_compat_r (INR (dimN p * dimH p * dimW p))) in E.
      unfold Rdiv in E. rewrite Rmult_assoc, Rinv_l, Rmult_1_r, Rmult_0_l in E by lra. exact E.
    - rewrite E. unfold Rdiv. ring. }
  rewrite HS. subst S.
  rewrite sum_upto_zero_iff
    by (intros; repeat (apply sum_upto_nonneg; intros); apply pixel_error_nonneg).
  split.
  - intros H n c y x Hn' Hc Hy Hx.
    specialize (H n Hn').
    rewrite sum_upto_zero_iff in H
      by (intros; apply sum_upto_nonneg; intros; apply pixel_error_nonneg).
    specialize (H y Hy).
    rewrite sum_upto_zero_iff in H by (intros; apply pixel_error_nonneg).
    specialize (H x Hx). cbn beta in H.
    exact (proj1 (pixel_error_zero_iff p g n y x) H c Hc).
  - intros H n Hn'.
    apply sum_upto_zero_iff; [intros; apply sum_upto_nonneg; intros; apply pixel_error_nonneg|].
    intros y Hy. apply sum_upto_zero_iff; [intros; apply pixel_error_nonneg|].
    intros x Hx. apply pixel_error_zero_iff. intros c Hc. apply H; assumption.
Qed.

Lemma total_loss_zero_iff (preds : FlowDict) (gt : Tensor) :
  Spec.total_loss preds gt = 0
  <-> Forall (fun kp => Spec.scale_error (snd kp) gt = 0) preds.
Proof.
  induction preds as [| [k p] preds IH]; cbn [Spec.total_loss].
  - split; [constructor | reflexivity].
  - assert (H1 : 0 <= Spec.scale_error p gt) by apply endpoint_error_nonneg.
    assert (H2 : 0 <= Spec.total_loss preds gt).
    { clear. induction preds as [| [k' p'] preds IH']; cbn [Spec.total_loss]; [lra|].
      pose proof (endpoint_error_nonneg p' (Spec.scaled_gt p' gt)).
      unfold Spec.scale_error. lra. }
    split.
    + intros E. constructor; [cbn [snd]; lra | apply IH; lra].
    + intros H. inversion H as [| ? ? Hp Hrest]; subst. cbn [snd] in Hp.
      apply IH in Hrest. lra.
Qed.

(** X5.  For scales of consistent shape the loss is zero exactly when every
    prediction equals the resized ground truth at every entry. *)
Theorem loss_zero_iff_predictions_match (preds : FlowDict) (gt : Tensor) :
  preds <> [] ->
  Forall (fun kp => Spec.shapes_consistent (snd kp) gt) preds ->
  (compute_multiscale_epe_error preds gt = Ok (Tensor0 (Real 0))
   <-> Forall (fun kp => matches_resized_gt (snd kp) gt) preds).
Proof.
  intros Hne Hall.
  pose proof (loss_consistent preds gt Hne Hall) as Hloss.
  rewrite Hloss.
  assert (Hz : Ok (Tensor0 (Real (Spec.total_loss preds gt))) = Ok (Tensor0 (Real 0))
               <-> Spec.total_loss preds gt = 0).
  { split; [intros E; injection E as E; exact E | intros ->; reflexivity]. }
  rewrite Hz, total_loss_zero_iff.
  clear Hloss Hz Hne. induction Hall as [| [k p] preds Hp _ IH].
  - split; constructor.
  - cbn [snd] in Hp. destruct Hp as (_ & _ & Hn & _ & Hh & Hw & _).
    pose proof (endpoint_error_zero_iff p (Spec.scaled_gt p gt) Hn Hh Hw) as Hiff.
    split; intros H; inversion H as [| ? ? H1 H2]; subst; cbn [snd] in H1;
      (constructor; [| apply IH; exact H2]); cbn [snd].
    + unfold matches_resized_gt. apply (proj1 Hiff). exact H1.
    + unfold Spec.scale_error. apply (proj2 Hiff). exact H1.
Qed.


Lemma gt4_consistent_with_itself : Spec.shapes_consistent gt4 gt4.
Proof.
  unfold Spec.shapes_consistent, Spec.scale_factor. cbn [gt4 const_tensor dimN dimC dimH dimW].
  change (Z.of_nat 4) with 4%Z.
  rewrite LossClaims.output_size_4_one. repeat split; lia.
Qed.

(** The ground truth itself as the only prediction: the loss is zero. *)
Lemma loss_zero_iff_predictions_match_example :
  compute_multiscale_epe_error [("flow3"%string, gt4)] gt4 = Ok (Tensor0 (Real 0)).
Proof.
  apply (loss_zero_iff_predictions_match [("flow3"%string, gt4)] gt4).
  - discriminate.
  - apply Forall_cons; [exact gt4_consistent_with_itself | apply Forall_nil].
  - apply Forall_cons; [| apply Forall_nil].
    intros n c y x _ _ _ _. cbn [snd Spec.scaled_gt entry].
    symmetry. apply bilinear_entry_const; cbn; try lia. reflexivity.
Defined.


(** X7.  A pyramid of predictions, each smaller than the ground truth by
    a power of two in height and width (as 1/8, 1/4, 1/2 and 1): no size is
    lost to rounding, the loss returns, and it is the sum of the endpoint
    errors of the scales. *)
Theorem loss_of_power_of_two_pyramid (preds : FlowDict) (gt : Tensor) :
  preds <> [] ->
  (0 < dimN gt)%nat -> (0 < dimC gt)%nat ->
  (Z.of_nat (dimH gt) < 2 ^ 53)%Z -> (Z.of_nat (dimW gt) < 2 ^ 53)%Z ->
  Forall (fun kp => dimN (snd kp) = dimN gt /\ dimC (snd kp) = dimC gt
                    /\ (0 < dimH (snd kp))%nat /\ (0 < dimW (snd kp))%nat
                    /\ power_of_two_scale (snd kp) gt) preds ->
  compute_multiscale_epe_error preds gt = Ok (Tensor0 (Real (Spec.total_loss preds gt))).
Proof.
  intros Hne Hn Hc BH BW Hall. apply loss_consistent; [exact Hne|].
  eapply Forall_impl; [| exact Hall]. cbn beta.
  intros [k p] (En & Ec & Hh & Hw & e & He & EH & EW). cbn [snd] in *.
  apply (LossClaims.pyramid_consistent p gt e); try assumption; lia.
Qed.

(** Half and full resolution against the 4x4 ground truth. *)
Lemma loss_of_power_of_two_pyramid_example :
  compute_multiscale_epe_error [("flow2"%string, pred2); ("flow3"%string, pred4)] gt4
  = Ok (Tensor0 (Real (Spec.total_loss [("flow2"%string, pred2); ("flow3"%string, pred4)] gt4))).
Proof.
  apply loss_of_power_of_two_pyramid; try (cbn; lia); try discriminate.
  apply Forall_cons; [| apply Forall_cons; [| apply Forall_nil]]; cbn [snd].
  - repeat split; try (cbn; lia). exists 1%Z. repeat split; cbn; lia.
  - repeat split; try (cbn; lia). exists 0%Z. repeat split; cbn; lia.
Defined.

End LossMore.

(* ================================================================== *)
(** * The error of a rounding, and the size of the resized ground truth *)
(* ================================================================== *)

Module ResizeBound.
Import Float64 Float64Facts Torch TorchFacts Inputs More.
Local Open Scope Q_scope.

Lemma rne_bounds (s : Q) : inject_Z (rne s) - s <= 1 # 2 /\ s - inject_Z (rne s) <= 1 # 2.
Proof.
  unfold rne. pose proof (Qfloor_le s) as H1. pose proof (Qlt_floor s) as H2.
  rewrite inject_Z_plus in H2. change (inject_Z 1) with 1 in H2.
  set (f := Qfloor s) in *.
  destruct (Qcompare (s - inject_Z f) (1 # 2)) eqn:C.
  - apply Qeq_alt in C. destruct (Z.even f); [| rewrite inject_Z_plus; change (inject_Z 1) with 1]; split; Lqa.lra.
  - apply Qlt_alt in C. split; Lqa.lra.
  - apply Qgt_alt in C. rewrite inject_Z_plus. change (inject_Z 1) with 1. split; Lqa.lra.
Qed.

Lemma pow2_m52 : pow2 (-52) == 1 # 4503599627370496.
Proof. vm_compute. reflexivity. Qed.

Lemma round64_bounds (x : Q) :
  0 < x -> x * (1 - eps) <= round64 x /\ round64 x <= x * (1 + eps).
Proof.
  intros Hx. unfold round64.
  destruct (Qeq_bool x 0) eqn:Hz.
  { apply Qeq_bool_iff in Hz. rewrite Hz in Hx. discriminate. }
  rewrite Qred_correct.
  assert (Ha : 0 < Qabs x) by (rewrite Qabs_pos by (apply Qlt_le_weak; assumption); assumption).
  destruct (ilog2_spec (Qabs x) Ha) as [He _].
  set (e := ilog2 (Qabs x)) in *.
  rewrite Qabs_pos in He by (apply Qlt_le_weak; assumption).
  unfold prec. change (53 - 1)%Z with 52%Z.
  set (s := x * pow2 (52 - e)).
  destruct (rne_bounds s) as [B1 B2].
  set (m := inject_Z (rne s)) in *.
  assert (Ht : pow2 (e - 52) == pow2 e * (1 # 4503599627370496)).
  { replace (e - 52)%Z with (e + -52)%Z by lia. rewrite pow2_add, pow2_m52. reflexivity. }
  assert (Hxs : x == s * pow2 (e - 52)).
  { unfold s. rewrite <- Qmult_assoc, <- pow2_add.
    replace (52 - e + (e - 52))%Z with 0%Z by lia. rewrite pow2_0. ring. }
  pose proof (pow2_pos (e - 52)) as Htp. pose proof (pow2_pos e) as HTp.
  set (t := pow2 (e - 52)) in *. set (T := pow2 e) in *.
  assert (Hhalf : (1 # 2) * t <= x * eps).
  { rewrite Ht. unfold eps. Lqa.lra. }
  assert (D1 : (m - s) * t <= (1 # 2) * t) by (apply Qmult_le_r; assumption).
  assert (D2 : (s - m) * t <= (1 # 2) * t) by (apply Qmult_le_r; assumption).
  assert (E1 : m * t == s * t + (m - s) * t) by ring.
  assert (E2 : m * t == s * t - (s - m) * t) by ring.
  split.
  - rewrite E2, <- Hxs. set (A := (s - m) * t) in *. Lqa.lra.
  - rewrite E1, <- Hxs. set (A := (m - s) * t) in *. Lqa.lra.
Qed.

Lemma resize_exact_or_one_short (h H x X : nat) :
  (0 < h)%nat -> (0 < H)%nat -> (0 < x)%nat -> (0 < X)%nat ->
  (x * H = h * X)%nat ->
  (Z.of_nat X < 2 ^ 53)%Z -> (Z.of_nat x <= 2 ^ 51)%Z ->
  output_size X (fdiv (inject_Z (Z.of_nat h)) (inject_Z (Z.of_nat H))) = Z.of_nat x
  \/ output_size X (fdiv (inject_Z (Z.of_nat h)) (inject_Z (Z.of_nat H))) = (Z.of_nat x - 1)%Z.
Proof.
  intros Hh HH Hx HX Hr BX Bx. unfold output_size, fmul, fdiv.
  set (zh := inject_Z (Z.of_nat h)). set (zH := inject_Z (Z.of_nat H)).
  set (zx := inject_Z (Z.of_nat x)). set (zX := inject_Z (Z.of_nat X)).
  assert (Pzh : 0 < zh) by (unfold zh; change 0 with (inject_Z 0); rewrite <- Zlt_Qlt; lia).
  assert (PzH : 0 < zH) by (unfold zH; change 0 with (inject_Z 0); rewrite <- Zlt_Qlt; lia).
  assert (Pzx : 0 < zx) by (unfold zx; change 0 with (inject_Z 0); rewrite <- Zlt_Qlt; lia).
  assert (PzX : 0 < zX) by (unfold zX; change 0 with (inject_Z 0); rewrite <- Zlt_Qlt; lia).
  assert (Pq : 0 < zh / zH).
  { apply Qlt_shift_div_l; [assumption | rewrite Qmult_0_l; assumption]. }
  assert (Hxq : zX * (zh / zH) == zx).
  { assert (E : zx * zH == zh * zX).
    { unfold zx, zH, zh, zX. rewrite <- !inject_Z_mult. apply inject_Z_injective. lia. }
    field_simplify_eq; [| intros Z0; rewrite Z0 in PzH; discriminate].
    rewrite (Qmult_comm zX zh), <- E. ring. }
  destruct (round64_bounds _ Pq) as [S1 S2]. set (sf := round64 (zh / zH)) in *.
  assert (Psf : 0 < sf) by (apply round64_pos; exact Pq).
  rewrite (round64_comp (round64 zX * sf) (zX * sf))
    by (unfold zX; rewrite (round64_Z (Z.of_nat X)) by lia; reflexivity).
  assert (PP : 0 < zX * sf) by (apply Qmult_lt_0_compat; assumption).
  apply (Qmult_le_l _ _ zX PzX) in S1. apply (Qmult_le_l _ _ zX PzX) in S2.
  rewrite Qmult_assoc, Hxq in S1, S2.
  destruct (round64_bounds _ PP) as [R1 R2].
  set (P := zX * sf) in *. set (R := round64 P) in *.
  assert (Bq : zx <= 2251799813685248).
  { unfold zx. change 2251799813685248 with (inject_Z (2 ^ 51)). rewrite <- Zle_Qle. exact Bx. }
  unfold eps in *.
  assert (Rlo : zx - 1 < R) by Lqa.lra.
  assert (Rhi : R < zx + 1) by Lqa.lra.
  assert (PR : 0 <= R) by Lqa.lra.
  unfold trunc. apply Qle_bool_iff in PR. rewrite PR.
  pose proof (Qfloor_le R) as F1. pose proof (Qlt_floor R) as F2.
  set (f := Qfloor R) in *.
  assert (G1 : (f < Z.of_nat x + 1)%Z).
  { rewrite Zlt_Qlt, inject_Z_plus. fold zx. change (inject_Z 1) with 1. Lqa.lra. }
  assert (G2 : (Z.of_nat x - 1 < f + 1)%Z).
  { rewrite Zlt_Qlt. rewrite inject_Z_plus in F2 |- *. unfold Z.sub. rewrite inject_Z_plus.
    rewrite inject_Z_opp. fold zx. change (inject_Z 1) with 1 in *. Lqa.lra. }
  lia.
Qed.

(** X6.  When height and width scale by the same factor, each dimension of the
    resized ground truth is the prediction's or one less: the two roundings
    of [size * (h / H)] can lose one pixel and never add one. *)
Theorem resized_size_is_exact_or_one_short (pred gt : Tensor) :
  Spec.same_ratio pred gt ->
  (0 < dimH pred)%nat -> (0 < dimW pred)%nat -> (0 < dimH gt)%nat -> (0 < dimW gt)%nat ->
  (Z.of_nat (dimH pred) <= 2 ^ 51)%Z -> (Z.of_nat (dimW pred) <= 2 ^ 51)%Z ->
  (Z.of_nat (dimH gt) < 2 ^ 53)%Z -> (Z.of_nat (dimW gt) < 2 ^ 53)%Z ->
  (output_size (dimH gt) (Spec.scale_factor pred gt) = Z.of_nat (dimH pred)
   \/ output_size (dimH gt) (Spec.scale_factor pred gt) = (Z.of_nat (dimH pred) - 1)%Z)
  /\ (output_size (dimW gt) (Spec.scale_factor pred gt) = Z.of_nat (dimW pred)
      \/ output_size (dimW gt) (Spec.scale_factor pred gt) = (Z.of_nat (dimW pred) - 1)%Z).
Proof.
  intros Hr Hh Hw HH HW Bh Bw BH BW. unfold Spec.scale_factor, Spec.same_ratio in *. split.
  - apply resize_exact_or_one_short; try assumption. reflexivity.
  - apply resize_exact_or_one_short; assumption.
Qed.

(** The 15x15 prediction against the 22x22 ground truth. *)
Lemma resized_size_is_exact_or_one_short_example :
  (output_size (dimH gt22) (Spec.scale_factor pred15 gt22) = Z.of_nat (dimH pred15)
   \/ output_size (dimH gt22) (Spec.scale_factor pred15 gt22) = (Z.of_nat (dimH pred15) - 1)%Z)
  /\ (output_size (dimW gt22) (Spec.scale_factor pred15 gt22) = Z.of_nat (dimW pred15)
      \/ output_size (dimW gt22) (Spec.scale_factor pred15 gt22)
         = (Z.of_nat (dimW pred15) - 1)%Z).
Proof.
  apply resized_size_is_exact_or_one_short; cbn; try reflexivity; lia.
Defined.

End ResizeBound.

(* ================================================================== *)
(** * Further properties of the driver *)
(* ================================================================== *)

Module DriverMore.
Import Torch TorchFacts LossFacts Inputs Driver DriverFacts Toy More.
Local Open Scope R_scope.

(** ** [set_seed] *)

Lemma set_seed_in_range (seed : Z) (r : RandomState) :
  (0 <= seed < 2 ^ 32)%Z -> set_seed seed r = Ok (seeded seed).
Proof.
  intros Hs. unfold set_seed, torch_seed_ok, numpy_seed_ok.
  destruct (Z.leb_spec (- 2 ^ 63) seed); [| lia].
  destruct (Z.leb_spec seed (2 ^ 64 - 1)); [| lia].
  destruct (Z.leb_spec 0 seed); [| lia].
  destruct (Z.leb_spec seed (2 ^ 32 - 1)); [| lia].
  reflexivity.
Qed.

Lemma set_seed_out_of_range (seed : Z) (r : RandomState) :
  ~ (0 <= seed < 2 ^ 32)%Z ->
  set_seed seed r = Raise RuntimeError \/ set_seed seed r = Raise ValueError.
Proof.
  intros Hs. unfold set_seed, torch_seed_ok, numpy_seed_ok.
  destruct (Z.leb_spec (- 2 ^ 63) seed), (Z.leb_spec seed (2 ^ 64 - 1));
    cbn [andb bind]; auto.
  destruct (Z.leb_spec 0 seed), (Z.leb_spec seed (2 ^ 32 - 1)); cbn [andb]; auto. lia.
Qed.

(** X8.  [set_seed] returns exactly for seeds from 0 to [2^32 - 1], the range
    of [numpy.random.seed]; it then leaves every generator seeded with that
    seed and cuDNN deterministic with benchmarking off, whatever the state
    before. *)
Theorem set_seed_returns_iff_seed_in_numpy_range (seed : Z) (r : RandomState) :
  ((exists r', set_seed seed r = Ok r') <-> (0 <= seed < 2 ^ 32)%Z)
  /\ forall r', set_seed seed r = Ok r' -> r' = seeded seed.
Proof.
  destruct (Z_le_dec 0 seed) as [H0 |]; [destruct (Z_lt_dec seed (2 ^ 32)) as [H1 |] |].
  - rewrite (set_seed_in_range seed r (conj H0 H1)). split.
    + split; [intros _; lia | intros _; eexists; reflexivity].
    + intros r' E. injection E as <-. reflexivity.
  - destruct (set_seed_out_of_range seed r ltac:(lia)) as [-> | ->]; split;
      try (split; [intros [r' E]; discriminate | lia]); intros r' E; discriminate.
  - destruct (set_seed_out_of_range seed r ltac:(lia)) as [-> | ->]; split;
      try (split; [intros [r' E]; discriminate | lia]); intros r' E; discriminate.
Qed.

(** ** Batches *)

Section Batches.
Context {A : Type}.

Lemma batch_sampler_concat (B : nat) (l cur : list A) :
  List.concat (batch_sampler B l cur) = (rev cur ++ l)%list.
Proof.
  revert cur. induction l as [| x l IH]; intros cur; cbn [batch_sampler].
  - destruct cur; cbn [List.concat]; [reflexivity|]. rewrite !app_nil_r. reflexivity.
  - destruct (List.length (x :: cur) =? B)%nat.
    + cbn [List.concat]. rewrite IH. cbn [rev app]. rewrite <- app_assoc. reflexivity.
    + rewrite IH. cbn [rev]. rewrite <- app_assoc. reflexivity.
Qed.

Lemma batch_sampler_sizes (B : nat) (l cur : list A) :
  (0 < B)%nat -> (List.length cur < B)%nat ->
  Forall (fun b => 0 < List.length b <= B)%nat (batch_sampler B l cur).
Proof.
  intros HB. revert cur. induction l as [| x l IH]; intros cur Hcur; cbn [batch_sampler].
  - destruct cur as [| c cur]; constructor; [| constructor].
    rewrite length_rev. cbn [List.length] in *. lia.
  - destruct (Nat.eqb_spec (List.length (x :: cur)) B) as [E | NE].
    + constructor; [rewrite length_rev; lia | apply IH; cbn; lia].
    + apply IH. cbn [List.length] in *. lia.
Qed.

(** X9.  Batching keeps every item once and in order (the batches,
    concatenated, are the order the sampler gave), and every batch has
    between one and [batch_size] items. *)
Theorem batches_partition_the_order (B : nat) (order : list A) :
  (0 < B)%nat ->
  List.concat (batch_sampler B order []) = order
  /\ Forall (fun b => 0 < List.length b <= B)%nat (batch_sampler B order []).
Proof.
  intros HB. split.
  - apply batch_sampler_concat.
  - apply batch_sampler_sizes; [exact HB | cbn; lia].
Qed.

End Batches.

Lemma batches_partition_the_order_example :
  List.concat (batch_sampler 2 [1; 2; 3; 4; 5]%nat []) = [1; 2; 3; 4; 5]%nat
  /\ Forall (fun b => 0 < List.length b <= 2)%nat (batch_sampler 2 [1; 2; 3; 4; 5]%nat []).
Proof. apply batches_partition_the_order. lia. Defined.

Section WithCollaborators.
Context {X : Collaborators}.

(** ** What a training batch changes *)

Lemma train_batch_inv (wd : R) (i : nat) (b : Batch) (st st' : State) (t t' : scalar) :
  training st = true ->
  train_batch wd i b st t = Ok (st', t') ->
  fs st' = fs st /\ training st' = true /\ lr st' = lr st
  /\ last_epoch st' = last_epoch st /\ passes st' = passes st
  /\ (params st', opt_state st') = update (lr st) wd (params st, opt_state st) b
  /\ exists v, t' = scalar_add t v /\ log st' = (log st ++ batch_trace i v)%list.
Proof.
  intros Htr. unfold train_batch. rewrite Htr.
  destruct (compute_multiscale_epe_error _ _) as [loss |]; cbn [bind]; [| discriminate].
  destruct loss as [x | x]; cbn [item backward bind]; [discriminate|].
  unfold optimizer_step, update. cbn [store_grads zero_grad emit grads params opt_state lr fst snd].
  destruct (adam_step _ _ _ _ _) as [p o]. intros E. injection E as <- <-.
  cbn. rewrite <- !app_assoc. repeat split; auto.
  exists x. split; reflexivity.
Qed.

Lemma train_batches_inv (wd : R) (bs : list Batch) :
  forall (i : nat) (st st' : State) (t t' : scalar),
  training st = true ->
  train_batches wd i bs st t = Ok (st', t') ->
  fs st' = fs st /\ training st' = true /\ lr st' = lr st
  /\ last_epoch st' = last_epoch st /\ passes st' = passes st
  /\ (params st', opt_state st') = fold_left (update (lr st) wd) bs (params st, opt_state st)
  /\ exists tr, log st' = (log st ++ tr)%list /\ Forall training_event tr.
Proof.
  induction bs as [| b bs IH]; intros i st st' t t' Htr; cbn [train_batches bind].
  - intros E. injection E as <- <-. repeat split; auto.
    exists []. rewrite app_nil_r. split; [reflexivity | constructor].
  - destruct (train_batch wd i b st t) as [[st1 t1] |] eqn:E1; cbn [bind fst snd];
      [| discriminate].
    intros E.
    destruct (train_batch_inv _ _ _ _ _ _ _ Htr E1)
      as (Hfs1 & Ht1 & Hlr1 & Hle1 & Hp1 & Hup1 & v & _ & Hlog1).
    destruct (IH _ _ _ _ _ Ht1 E) as (Hfs & Ht & Hlr & Hle & Hp & Hup & tr & Hlog & Htrain).
    rewrite Hfs, Hlr, Hle, Hp, Hup, Hfs1, Hlr1, Hle1, Hp1, Hup1.
    repeat split; auto.
    exists (batch_trace i v ++ tr)%list. rewrite Hlog, Hlog1, <- app_assoc. split; [reflexivity|].
    apply Forall_app. split; [| exact Htrain].
    unfold batch_trace. repeat constructor.
Qed.

(** X10.  Within an epoch the parameters after the batches are one optimizer
    step per batch, in order, each on the gradient of that batch alone taken
    at the parameters the step starts from: gradients are zeroed before every
    backward pass and never accumulate over batches. *)
Theorem epoch_updates_one_step_per_batch (wd : R) (i : nat) (bs : list Batch)
  (st st' : State) (t t' : scalar) :
  training st = true ->
  train_batches wd i bs st t = Ok (st', t') ->
  (params st', opt_state st') = fold_left (update (lr st) wd) bs (params st, opt_state st).
Proof.
  intros Htr E. apply (train_batches_inv wd bs i st st' t t' Htr E).
Qed.

(** ** What the phases of a run change *)

Lemma train_epoch_inv (args : Config) (dl : DataLoader) (epoch : nat) (st st' : State) :
  training st = true ->
  train_epoch args dl epoch st = Ok st' ->
  fs st' = fs st /\ training st' = true
  /\ exists tr, log st' = (log st ++ tr)%list /\ Forall training_event tr.
Proof.
  intros Htr. unfold train_epoch.
  match goal with
  | |- context [train_batches ?wd 0 ?bs ?s ?t] =>
      destruct (train_batches wd 0 bs s t) as [[st1 t1] |] eqn:E1; cbn [bind fst snd];
        [| discriminate];
      destruct (train_batches_inv wd bs 0%nat s st1 t t1 Htr E1)
        as (Hfs & Ht & _ & _ & _ & _ & tr & Hlog & Htrain)
  end.
  unfold mean_loss. destruct (loader_len dl =? 0)%nat; cbn [bind]; [discriminate|].
  intros E. injection E as <-.
  cbn [scheduler_step emit fs training log]. rewrite Hfs, Ht, Hlog.
  cbn [next_pass emit fs log]. repeat split.
  eexists. rewrite <- !app_assoc. split; [reflexivity|].
  constructor; [reflexivity|]. apply Forall_app. split; [exact Htrain|].
  repeat constructor.
Qed.

Lemma train_loop_inv (args : Config) (dl : DataLoader) (n : nat) :
  forall (epoch : nat) (st st' : State),
  training st = true ->
  train_loop args dl n epoch st = Ok st' ->
  fs st' = fs st /\ training st' = true
  /\ exists tr, log st' = (log st ++ tr)%list /\ Forall training_event tr.
Proof.
  induction n as [| n IH]; intros epoch st st' Htr; cbn [train_loop bind].
  - intros E. injection E as <-. repeat split; auto.
    exists []. rewrite app_nil_r. split; [reflexivity | constructor].
  - destruct (train_epoch args dl epoch st) as [st1 |] eqn:E1; cbn [bind]; [| discriminate].
    intros E. destruct (train_epoch_inv _ _ _ _ _ Htr E1) as (Hfs1 & Ht1 & tr1 & Hlog1 & Htr1).
    destruct (IH _ _ _ Ht1 E) as (Hfs & Ht & tr & Hlog & Htr2).
    rewrite Hfs, Hfs1. repeat split; auto.
    exists (tr1 ++ tr)%list. rewrite Hlog, Hlog1, <- app_assoc. split; [reflexivity|].
    apply Forall_app. split; assumption.
Qed.

Lemma eval_batches_inv (bs : list Batch) :
  forall (st st' : State) (flow flow' : Accum),
  eval_batches bs st flow = Ok (st', flow') ->
  fs st' = fs st /\ params st' = params st /\ training st' = training st
  /\ log st' = (log st ++ repeat (ForwardPass (training st)) (List.length bs))%list.
Proof.
  induction bs as [| b bs IH]; intros st st' flow flow'; cbn [eval_batches bind].
  - intros E. injection E as <- <-. cbn. rewrite app_nil_r. repeat split.
  - destruct (dict_get _ _) as [t |]; cbn [bind]; [| discriminate].
    destruct (torch_cat flow t) as [flow1 |]; cbn [bind]; [| discriminate].
    intros E. apply IH in E. destruct E as (Hfs & Hp & Ht & Hlog).
    cbn [emit fs params training log] in *. rewrite Hfs, Hp, Ht, Hlog.
    cbn [repeat List.length]. rewrite <- app_assoc. repeat split.
Qed.

Lemma save_checkpoint_inv (env : Environment) (st st' : State) :
  save_checkpoint env st = Ok st' ->
  params st' = params st /\ training st' = training st
  /\ files (fs st') = (model_path env, StateDict (params st)) :: files (fs st)
  /\ (dirs (fs st') = dirs (fs st) \/ dirs (fs st') = "checkpoints"%string :: dirs (fs st))
  /\ exists tr, log st' = (log st ++ tr)%list /\ Forall non_training_event tr.
Proof.
  unfold save_checkpoint.
  destruct (path_exists (fs st) "checkpoints") eqn:Hex; cbn [bind].
  - unfold write_file. destruct (_ && _); cbn [bind]; [| discriminate].
    intros E. injection E as <-. cbn. repeat split; auto.
    eexists. split; [reflexivity|]. repeat constructor.
  - unfold makedirs. rewrite Hex. cbn [bind]. unfold write_file.
    destruct (_ && _); cbn [bind]; [| discriminate].
    intros E. injection E as <-. cbn. repeat split; auto.
    eexists. rewrite <- app_assoc. split; [reflexivity|]. repeat constructor.
Qed.

Lemma repeat_eval_events (n : nat) : Forall non_training_event (repeat (ForwardPass false) n).
Proof. induction n; cbn [repeat]; constructor; [reflexivity | assumption]. Qed.

Lemma evaluate_inv (args : Config) (env : Environment) (td : DataLoader)
  (st st' : State) (flow : Accum) :
  evaluate args env td st = Ok (st', flow) ->
  load_state_dict (fs st) (model_path env) = Ok (params st')
  /\ files (fs st') = ("submission.npy"%string, NpyArray flow) :: files (fs st)
  /\ dirs (fs st') = dirs (fs st)
  /\ exists tr, log st' = (log st ++ tr)%list /\ Forall non_training_event tr.
Proof.
  unfold evaluate.
  destruct (load_state_dict (fs st) (model_path env)) as [p |]; cbn [bind]; [| discriminate].
  match goal with
  | |- context [eval_batches ?bs ?s Empty1D] =>
      destruct (eval_batches bs s Empty1D) as [[st1 flow1] |] eqn:E1; cbn [bind fst snd];
        [| discriminate];
      destruct (eval_batches_inv bs s st1 Empty1D flow1 E1) as (Hfs & Hp & _ & Hlog)
  end.
  unfold write_file. cbn [emit fs]. destruct (_ && _); cbn [bind]; [| discriminate].
  intros E. injection E as <- <-.
  cbn [emit set_fs set_training set_params fs params log files dirs training] in *.
  rewrite Hfs, Hp, Hlog. repeat split.
  eexists. rewrite <- !app_assoc. split; [reflexivity|].
  constructor; [reflexivity|]. constructor; [reflexivity|].
  apply Forall_app. split; [apply repeat_eval_events | repeat constructor].
Qed.

(** The stages of a run that returned. *)
Lemma main_stages (args : Config) (env : Environment) (st : State) (flow : Accum) :
  main args env = Ok (st, flow) ->
  exists st_tr st_ck,
    train_loop args (mkLoader X (train_set env) (train_batch_size args) (train_shuffle args))
      (Z.to_nat (epochs args)) 0 (initial_state args env) = Ok st_tr
    /\ save_checkpoint env st_tr = Ok st_ck
    /\ evaluate args env (mkLoader X (test_set env) (test_batch_size args) (test_shuffle args))
         st_ck = Ok (st, flow).
Proof.
  unfold main, new_loader.
  destruct (train_batch_size args =? 0)%nat; cbn [bind]; [discriminate|].
  destruct (test_batch_size args =? 0)%nat; cbn [bind]; [discriminate|].
  destruct (train_loop _ _ _ _ _) as [st_tr |] eqn:E1; cbn [bind]; [| discriminate].
  destruct (save_checkpoint env st_tr) as [st_ck |] eqn:E2; cbn [bind]; [| discriminate].
  intros E3. exists st_tr, st_ck. repeat split; assumption.
Qed.


(** X12.  The parameters that are evaluated are the parameters training ended
    with: the checkpoint holds them, the reload returns them and the
    evaluation does not change them. *)
Theorem main_evaluates_trained_parameters (args : Config) (env : Environment)
  (st : State) (flow : Accum) :
  main args env = Ok (st, flow) ->
  exists st_tr,
    train_loop args (mkLoader X (train_set env) (train_batch_size args) (train_shuffle args))
      (Z.to_nat (epochs args)) 0 (initial_state args env) = Ok st_tr
    /\ params st = params st_tr
    /\ load_state_dict (fs st) (model_path env) = Ok (params st_tr).
Proof.
  intros E. destruct (main_stages _ _ _ _ E) as (st_tr & st_ck & E1 & E2 & E3).
  destruct (save_checkpoint_inv _ _ _ E2) as (Hp2 & _ & Hf2 & _).
  destruct (evaluate_inv _ _ _ _ _ _ E3) as (Hload & Hf3 & _).
  exists st_tr. split; [exact E1|].
  unfold load_state_dict in Hload |- *. rewrite Hf2 in Hload. cbn [read_file] in Hload.
  rewrite String.eqb_refl in Hload. injection Hload as Hp.
  rewrite Hf3, Hf2. cbn [read_file]. rewrite String.eqb_refl.
  split; [congruence | reflexivity].
Qed.

(** X13.  The log of a run that returned is the training events followed by
    events that are not training events: once the checkpoint is written there
    is no forward pass in training mode, no backward pass and no optimizer or
    scheduler step. *)
Theorem main_trains_then_evaluates (args : Config) (env : Environment)
  (st : State) (flow : Accum) :
  main args env = Ok (st, flow) ->
  exists tr rest,
    log st = (tr ++ rest)%list /\ Forall training_event tr /\ Forall non_training_event rest.
Proof.
  intros E. destruct (main_stages _ _ _ _ E) as (st_tr & st_ck & E1 & E2 & E3).
  destruct (train_loop_inv _ _ _ _ (initial_state args env) _ eq_refl E1) as (_ & _ & tr & Hlog1 & Htr).
  destruct (save_checkpoint_inv _ _ _ E2) as (_ & _ & _ & _ & tr2 & Hlog2 & Htr2).
  destruct (evaluate_inv _ _ _ _ _ _ E3) as (_ & _ & _ & tr3 & Hlog3 & Htr3).
  exists tr, (tr2 ++ tr3)%list. rewrite Hlog3, Hlog2, Hlog1. cbn [initial_state log app].
  rewrite <- app_assoc. repeat split; [assumption | apply Forall_app; split; assumption].
Qed.

(** ** A run that cannot train *)


Lemma loader_batches_cons (seed : Z) (k : nat) (dl : DataLoader) :
  shuffle_keeps_length -> (0 < batch_size dl)%nat -> dataset dl <> [] ->
  exists l rest, loader_batches seed k dl = train_collate l :: rest.
Proof.
  intros Hs HB Hd.
  pose proof (loader_count seed k dl HB Hs) as Hc. unfold loader_batches in *.
  destruct (batch_sampler _ _ _) as [| l ls]; cbn [map]; [| eexists; eexists; reflexivity].
  exfalso. cbn [map List.length] in Hc. unfold loader_len in Hc.
  assert (0 < (List.length (dataset dl) + batch_size dl - 1) / batch_size dl)%nat; [| lia].
  apply Nat.div_str_pos. destruct (dataset dl); [contradiction | cbn [List.length]; lia].
Qed.



(** ** Evaluation *)

(** X16.  A network without a ["flow3"] output: the evaluation of a non-empty
    test set raises [KeyError] at the first batch, and nothing is exported. *)
Theorem evaluate_without_flow3 (args : Config) (env : Environment) (td : DataLoader)
  (st : State) (p : Params) :
  (forall mode q x, dict_get (EVFlowNet mode q x) "flow3" = Raise KeyError) ->
  load_state_dict (fs st) (model_path env) = Ok p ->
  dataset td <> [] -> (0 < batch_size td)%nat -> shuffle_keeps_length ->
  evaluate args env td st = Raise KeyError.
Proof.
  intros Hm Hload Hd HB Hs. unfold evaluate. rewrite Hload. cbn [bind].
  match goal with
  | |- context [loader_batches ?s ?k ?dl] =>
      destruct (loader_batches_cons s k dl Hs HB Hd) as (l & rest & ->)
  end.
  cbn [eval_batches]. rewrite Hm. reflexivity.
Qed.

Lemma torch_cat_rows (flow flow' : Accum) (t : Tensor) :
  torch_cat flow t = Ok flow' ->
  leading_dim flow' = (leading_dim flow + dimN t)%nat
  /\ (forall n c y x, (n < leading_dim flow)%nat ->
        acc_entry flow' n c y x = acc_entry flow n c y x)
  /\ (forall i c y x, acc_entry flow' (leading_dim flow + i) c y x = entry t i c y x).
Proof.
  destruct flow as [| a]; cbn [torch_cat].
  - intros E. injection E as <-. cbn. repeat split. intros; lia.
  - destruct (_ && _); [| discriminate]. intros E. injection E as <-.
    cbn [leading_dim acc_entry entry dimN]. repeat split.
    + intros n c y x Hn. apply Nat.ltb_lt in Hn. rewrite Hn. reflexivity.
    + intros i c y x.
      destruct (Nat.ltb_spec (dimN a + i) (dimN a)) as [Hlt | _]; [lia|].
      replace (dimN a + i - dimN a)%nat with i by lia. reflexivity.
Qed.

Lemma eval_batches_rows (bs : list Batch) :
  model_keeps_batch ->
  forall (st st' : State) (flow flow' : Accum),
  eval_batches bs st flow = Ok (st', flow') ->
  (leading_dim flow <= leading_dim flow')%nat
  /\ (forall n c y x, (n < leading_dim flow)%nat ->
        acc_entry flow' n c y x = acc_entry flow n c y x)
  /\ forall j b t i c y x,
       nth_error bs j = Some b ->
       dict_get (EVFlowNet (training st) (params st) (event_volume b)) "flow3" = Ok t ->
       (i < dimN t)%nat ->
       acc_entry flow' (leading_dim flow + rows_before bs j + i) c y x = entry t i c y x.
Proof.
  intros Hk. induction bs as [| b0 bs IH]; intros st st' flow flow'; cbn [eval_batches bind].
  - intros E. injection E as <- <-. repeat split; auto.
    intros j b t i c y x Hj. destruct j; discriminate.
  - destruct (dict_get _ _) as [t0 |] eqn:Hget; cbn [bind]; [| discriminate].
    destruct (torch_cat flow t0) as [flow1 |] eqn:Hcat; cbn [bind]; [| discriminate].
    intros E. destruct (IH _ _ _ _ E) as (Hle & Hold & Hnew).
    destruct (torch_cat_rows _ _ _ Hcat) as (Hl1 & Hold1 & Hnew1).
    pose proof (Hk _ _ _ _ Hget) as HN.
    cbn [emit training params] in Hnew.
    split; [lia|]. split.
    + intros n c y x Hn. rewrite Hold by lia. apply Hold1. exact Hn.
    + intros j b t i c y x Hj Ht Hi. destruct j as [| j]; cbn [nth_error] in Hj.
      * injection Hj as <-. rewrite Hget in Ht. injection Ht as <-.
        unfold rows_before. cbn [firstn map list_sum fold_right]. rewrite Nat.add_0_r.
        rewrite Hold by lia. apply Hnew1.
      * unfold rows_before in *. cbn [firstn map]. 
        change (list_sum (dimN (event_volume b0) :: ?l))
          with (dimN (event_volume b0) + list_sum l)%nat.
        rewrite <- (Hnew j b t i c y x Hj Ht Hi). f_equal. lia.
Qed.

(** X17.  The exported array holds the predictions in loader order: its rows
    after those of the earlier batches are the rows of the ["flow3"] output
    for this batch, computed in evaluation mode with the reloaded
    parameters. *)
Theorem export_rows_follow_loader_order (args : Config) (env : Environment)
  (td : DataLoader) (st st' : State) (flow : Accum) (p : Params) :
  model_keeps_batch ->
  load_state_dict (fs st) (model_path env) = Ok p ->
  evaluate args env td st = Ok (st', flow) ->
  forall j b t i c y x,
    nth_error (loader_batches (seed args) (passes st) td) j = Some b ->
    dict_get (EVFlowNet false p (event_volume b)) "flow3" = Ok t ->
    (i < dimN t)%nat ->
    acc_entry flow (rows_before (loader_batches (seed args) (passes st) td) j + i) c y x
    = entry t i c y x.
Proof.
  intros Hk Hload. unfold evaluate. rewrite Hload. cbn [bind].
  match goal with
  | |- context [eval_batches ?bs ?s Empty1D] =>
      destruct (eval_batches bs s Empty1D) as [[st1 flow1] |] eqn:E1; cbn [bind fst snd];
        [| discriminate];
      destruct (eval_batches_rows bs Hk s st1 Empty1D flow1 E1) as (_ & _ & Hrows)
  end.
  unfold write_file. destruct (_ && _); cbn [bind]; [| discriminate].
  intros E. injection E as _ <-.
  intros j b t i c y x Hj Ht Hi.
  cbn [emit set_training set_params passes training params leading_dim] in Hrows, Hj |- *.
  exact (Hrows j b t i c y x Hj Ht Hi).
Qed.

End WithCollaborators.

(** ** The whole script *)

(** The script is [main] after a successful [set_seed]: it returns what
    [main] returns when the seed is in the range of [numpy.random.seed], and
    raises before any loader, model or file is made when it is not. *)
Lemma script_needs_a_seed_numpy_accepts {X : Collaborators}
  (args : Config) (env : Environment) (r : RandomState) :
  ((0 <= seed args < 2 ^ 32)%Z ->
     script args env r = bind (main args env) (fun out => Ok (seeded (seed args), out)))
  /\ (~ (0 <= seed args < 2 ^ 32)%Z ->
        script args env r = Raise RuntimeError \/ script args env r = Raise ValueError).
Proof.
  unfold script. split.
  - intros Hs. rewrite (set_seed_in_range _ r Hs). reflexivity.
  - intros Hs. destruct (set_seed_out_of_range _ r Hs) as [-> | ->]; auto.
Qed.


(** ** The properties on the small instances *)

Lemma toy_run : { r | main (X := toy) (toy_args 2) toy_env = Ok r }.
Proof. eexists. vm_compute. reflexivity. Defined.

Lemma toy_run_eq :
  main (X := toy) (toy_args 2) toy_env = Ok (fst (proj1_sig toy_run), snd (proj1_sig toy_run)).
Proof. rewrite <- surjective_pairing. exact (proj2_sig toy_run). Qed.


Lemma main_evaluates_trained_parameters_example :
  exists st_tr,
    train_loop (X := toy) (toy_args 2)
      (mkLoader toy (train_set toy_env) (train_batch_size (toy_args 2))
         (train_shuffle (toy_args 2)))
      (Z.to_nat (epochs (toy_args 2))) 0 (initial_state (toy_args 2) toy_env) = Ok st_tr
    /\ params (fst (proj1_sig toy_run)) = params st_tr
    /\ load_state_dict (fs (fst (proj1_sig toy_run))) (model_path toy_env) = Ok (params st_tr).
Proof.
  apply (main_evaluates_trained_parameters (X := toy) (toy_args 2) toy_env _
           (snd (proj1_sig toy_run))).
  exact toy_run_eq.
Defined.

Lemma main_trains_then_evaluates_example :
  exists tr rest,
    log (fst (proj1_sig toy_run)) = (tr ++ rest)%list
    /\ Forall training_event tr /\ Forall non_training_event rest.
Proof.
  apply (main_trains_then_evaluates (X := toy) (toy_args 2) toy_env _
           (snd (proj1_sig toy_run))).
  exact toy_run_eq.
Defined.

Lemma toy_batches_run :
  { r | train_batches (X := toy) 0 0 (map (train_collate (Collaborators := toy)) toy_groups)
          (initial_state (toy_args 1) toy_env) (Real 0) = Ok r }.
Proof. eexists. vm_compute. reflexivity. Defined.

(** One epoch of the small instance: batches [1, 2] and [3]. *)
Lemma epoch_updates_one_step_per_batch_example :
  (params (fst (proj1_sig toy_batches_run)), opt_state (fst (proj1_sig toy_batches_run)))
  = fold_left (update (lr (initial_state (toy_args 1) toy_env)) 0)
      (map (train_collate (Collaborators := toy)) toy_groups)
      (params (initial_state (toy_args 1) toy_env),
       opt_state (initial_state (toy_args 1) toy_env)).
Proof.
  apply (epoch_updates_one_step_per_batch (X := toy) 0 0 _ _ _ (Real 0)
           (snd (proj1_sig toy_batches_run))).
  - reflexivity.
  - rewrite <- surjective_pairing. exact (proj2_sig toy_batches_run).
Defined.


Lemma mute_shuffle_keeps_length : shuffle_keeps_length (X := mute).
Proof. intros s k l. apply length_rev. Qed.


Lemma evaluate_without_flow3_example :
  evaluate (X := mute) (toy_args 0) mute_env mute_test_data mute_saved = Raise KeyError.
Proof.
  apply (evaluate_without_flow3 (X := mute) (toy_args 0) mute_env mute_test_data mute_saved tt).
  - reflexivity.
  - reflexivity.
  - discriminate.
  - cbn. lia.
  - exact mute_shuffle_keeps_length.
Defined.

Lemma toy_keeps_batch : model_keeps_batch (X := toy).
Proof. intros mode p x t E. cbn in E. injection E as <-. reflexivity. Qed.

Lemma toy_evaluation : { r | evaluate (X := toy) (toy_args 0) toy_env toy_test_data toy_saved = Ok r }.
Proof. eexists. vm_compute. reflexivity. Defined.

(** Row 2 of the export is the first row of the second batch's output. *)
Lemma export_rows_follow_loader_order_example :
  acc_entry (snd (proj1_sig toy_evaluation))
    (rows_before (loader_batches (X := toy) (seed (toy_args 0)) (passes toy_saved) toy_test_data) 1
     + 0) 0 0 0
  = entry (const_tensor 2 2 1 1 0) 0 0 0 0.
Proof.
  apply (export_rows_follow_loader_order (X := toy) (toy_args 0) toy_env toy_test_data
           toy_saved (fst (proj1_sig toy_evaluation)) (snd (proj1_sig toy_evaluation)) tt
           toy_keeps_batch eq_refl)
    with (b := train_collate (Collaborators := toy) [3; 4]%nat).
  - rewrite <- surjective_pairing. exact (proj2_sig toy_evaluation).
  - reflexivity.
  - reflexivity.
  - cbn. lia.
Defined.

End DriverMore.
